(** * A shallow embedding of the Go rules engine of go-game.js

    The engine is embedded function by function: boards are arrays of arrays
    of numbers, coordinates are JS integers (they become negative in
    [neighbors] and in the pass move), and the JS [Set]s of "r,c" keys are
    insertion-ordered lists of coordinate pairs. *)

From Stdlib Require Import ZArith Lia.
From stdpp Require Import base tactics option list numbers relations strings pretty.

Local Open Scope Z_scope.
Set Warnings "-clear-no-such-hyp".

(** ** Types and utilities *)

Definition EMPTY : Z := 0.
Definition BLACK : Z := 1.
Definition WHITE : Z := 2.

(** [OTHER = (c) => (c === BLACK ? WHITE : BLACK)] *)
Definition OTHER (c : Z) : Z := if c =? BLACK then WHITE else BLACK.

Abbreviation Pos := (Z * Z)%type.
Abbreviation Grid A := (list (list A)).
Abbreviation Board := (list (list Z)).

(** [a[i]] for a JS array held as a list: [None] stands for [undefined],
    which is what JS answers at a negative or too large index. *)
Definition at_ {A} (a : list A) (i : Z) : option A :=
  if 0 <=? i then a !! Z.to_nat i else None.

(** [g[r][c]].  When the row [g[r]] itself is missing JS raises a TypeError;
    the functions below only read rows that exist, except [placeAndCapture],
    which tests the row first. *)
Definition cellAt {A} (g : Grid A) (r c : Z) : option A :=
  match at_ g r with
  | Some row => at_ row c
  | None => None
  end.

(** The same read for a destructured pair [[r, c]]. *)
Definition cellOf {A} (g : Grid A) (p : Pos) : option A := cellAt g p.1 p.2.

(** [g[r][c] = v] on a cell that exists.  Every write of the engine targets
    a cell it has just read a number from; a write outside the array (where
    JS would grow the row, or raise on a missing row) does not occur and is
    modelled as no change. *)
Definition setCell {A} (g : Grid A) (r c : Z) (v : A) : Grid A :=
  if (0 <=? r) && (0 <=? c)
  then alter (λ row, <[Z.to_nat c := v]> row) (Z.to_nat r) g
  else g.

(** [board.length] *)
Definition sizeOf {A} (g : Grid A) : Z := Z.of_nat (length g).

(** [Array.from({ length: size }, () => Array(size).fill(v))] *)
Definition makeGrid {A} (size : Z) (v : A) : Grid A :=
  replicate (Z.to_nat size) (replicate (Z.to_nat size) v).

Definition makeBoard (size : Z) : Board := makeGrid size EMPTY.

(** [board.map((row) => row.slice())]: a fresh array with the same content.
    On values the copy is the board itself; the module [Store] below models
    the rows as mutable objects and the copy as an allocation. *)
Definition slice {A} (row : list A) : list A := row.
Definition cloneBoard (board : Board) : Board := slice <$> board.

(** [board.map((r) => r.join("")).join("|")] *)
Definition join (sep : string) (l : list string) : string := String.concat sep l.
Definition boardKey (board : Board) : string :=
  join "|" ((λ r : list Z, join "" (pretty <$> r)) <$> board).

Definition inBounds (size r c : Z) : bool :=
  (0 <=? r) && (r <? size) && (0 <=? c) && (c <? size).

Definition neighbors (size r c : Z) : list Pos :=
  List.filter (λ p : Pos, inBounds size p.1 p.2)
    [(r - 1, c); (r + 1, c); (r, c - 1); (r, c + 1)].

(** ** JS [Set] of keys, in insertion order

    The keys ["r,c"] are in one-to-one correspondence with the integer pairs
    they are built from, so the pair stands for the key. *)
Section JsSet.
Context {A : Type} `{EqDecision A}.

Definition setHas (s : list A) (x : A) : bool := bool_decide (x ∈ s).
Definition setAdd (s : list A) (x : A) : list A :=
  if setHas s x then s else s ++ [x].
End JsSet.

(** ** floodGroup *)

Record Group := mkGroup {
  gcolor : option Z;
  stones : list Pos;
  liberties : list Pos
}.

(** State of the [while (stack.length)] loop; the head of [stack] is the
    element [pop] takes, [push] conses. *)
Record Flood := mkFlood {
  stack : list Pos;
  fstones : list Pos;
  libs : list Pos
}.

(** One turn of the inner [for (const [ar, ac] of neighbors(...))]. *)
Definition floodVisit (board : Board) (color : option Z) (stones : list Pos)
    (acc : list Pos * list Pos) (n : Pos) : list Pos * list Pos :=
  let v := cellOf board n in
  if decide (v = Some EMPTY) then (acc.1, setAdd acc.2 n)
  else if bool_decide (v = color) && negb (setHas stones n) then (n :: acc.1, acc.2)
  else acc.

(** One turn of the [while] loop (the stack is not empty). *)
Definition floodStep (board : Board) (color : option Z) (s : Flood) : Flood :=
  match stack s with
  | [] => s
  | p :: rest =>
      if setHas (fstones s) p then mkFlood rest (fstones s) (libs s)
      else
        let stones' := fstones s ++ [p] in
        let acc := fold_left (floodVisit board color stones')
                     (neighbors (sizeOf board) p.1 p.2) (rest, libs s) in
        mkFlood acc.1 stones' acc.2
  end.

(** The loop, with a bound on the number of turns; [None] when the bound is
    reached before the stack is empty. *)
Fixpoint floodLoop (fuel : nat) (board : Board) (color : option Z) (s : Flood)
    : option Flood :=
  match stack s with
  | [] => Some s
  | _ :: _ =>
      match fuel with
      | O => None
      | S fuel' => floodLoop fuel' board color (floodStep board color s)
      end
  end.

(** Turns that always suffice: each turn either drops a stacked duplicate
    or adds a stone and stacks at most four cells
    (see [floodLoop_terminates]). *)
Definition floodFuel (board : Board) : nat :=
  (4 * (length board * length board + 1) + 2)%nat.

Definition floodGroup (board : Board) (r c : Z) : Group :=
  let color := cellOf board (r, c) in
  match floodLoop (floodFuel board) board color (mkFlood [(r, c)] [] []) with
  | Some s => mkGroup color (fstones s) (libs s)
  | None => mkGroup color [] []
  end.

(** ** placeAndCapture *)

(** What a call yields: the JS function returns [null] or an object, and
    raises a TypeError when the row [board[r]] does not exist. *)
Inductive Attempt :=
  | Threw
  | ILLEGAL
  | Placed (board : Board) (captured : Z).

(** State of the capture loop: [newB], [captured], [seen]. *)
Definition removeStones (st : Board * Z) (s : Pos) : Board * Z :=
  (setCell st.1 s.1 s.2 EMPTY, st.2 + 1).

Definition captureStep (opp : Z) (st : Board * Z * list Pos) (n : Pos)
    : Board * Z * list Pos :=
  let '(newB, captured, seen) := st in
  if decide (cellOf newB n = Some opp) then
    if setHas seen n then st
    else
      let seen' := setAdd seen n in
      let grp := floodGroup newB n.1 n.2 in
      if decide (length (liberties grp) = 0%nat)
      then (fold_left removeStones (stones grp) (newB, captured), seen')
      else (newB, captured, seen')
  else st.

(** The board and capture count after the capture loop. *)
Definition capturePhase (board : Board) (r c color : Z) : Board * Z :=
  let newB := setCell (cloneBoard board) r c color in
  (fold_left (captureStep (OTHER color)) (neighbors (sizeOf board) r c)
     (newB, 0, [])).1.

Definition placeAndCapture (board : Board) (r c color : Z) : Attempt :=
  match at_ board r with
  | None => Threw
  | Some row =>
      if decide (at_ row c = Some EMPTY) then
        let '(newB, captured) := capturePhase board r c color in
        let self := floodGroup newB r c in
        if decide (length (liberties self) = 0%nat) then ILLEGAL
        else Placed newB captured
      else ILLEGAL
  end.

(** ** legalMoves *)

Record Res := mkRes { res_board : Board; captured : Z }.
Record Move := mkMove { mr : Z; mc : Z; res : Res; pass : bool }.

(** [koKeyLast && k === koKeyLast]: [null] and the empty string are falsy. *)
Definition koHit (koKeyLast : option string) (k : string) : bool :=
  match koKeyLast with
  | None => false
  | Some s => negb (bool_decide (s = "")) && bool_decide (k = s)
  end.

Definition legalCell (board : Board) (color : Z) (koKeyLast : option string)
    (r : Z) (lst : list Move) (c : Z) : list Move :=
  if decide (cellAt board r c = Some EMPTY) then
    match placeAndCapture board r c color with
    | Placed b n =>
        if koHit koKeyLast (boardKey b) then lst
        else lst ++ [mkMove r c (mkRes b n) false]
    | _ => lst
    end
  else lst.

Definition passMove (board : Board) : Move :=
  mkMove (-1) (-1) (mkRes (cloneBoard board) 0) true.

Definition legalMoves (board : Board) (color : Z) (koKeyLast : option string)
    : list Move :=
  let size := sizeOf board in
  let lst :=
    fold_left (λ lst r,
        fold_left (legalCell board color koKeyLast r) (seqZ 0 size) lst)
      (seqZ 0 size) [] in
  lst ++ [passMove board].

(** ** chineseScore *)

Record Score := mkScore { black : Z; white : Z }.

(** The nested [for (let r ...) for (let c ...)] loops over the board. *)
Definition forCells {S} (size : Z) (body : S → Z → Z → S) (s : S) : S :=
  fold_left (λ s r, fold_left (λ s c, body s r c) (seqZ 0 size) s)
    (seqZ 0 size) s.

(** First pass: the stones. *)
Definition countStone (board : Board) (s : Score) (r c : Z) : Score :=
  if decide (cellAt board r c = Some BLACK) then mkScore (black s + 1) (white s)
  else if decide (cellAt board r c = Some WHITE)
       then mkScore (black s) (white s + 1)
       else s.

(** [seen[r][c]] read as a condition ([undefined] is falsy). *)
Definition isSeen (seen : Grid bool) (p : Pos) : bool :=
  default false (cellOf seen p).

(** State of the region loop [while (q.length)]: the stack [q], [seen],
    [count] and the set [border] of the values met around the region. *)
Record Region := mkRegion {
  rq : list Pos;
  rseen : Grid bool;
  rcount : Z;
  rborder : list (option Z)
}.

Definition regionVisit (board : Board) (s : Region) (n : Pos) : Region :=
  let v := cellOf board n in
  if bool_decide (v = Some EMPTY) && negb (isSeen (rseen s) n) then
    mkRegion (n :: rq s) (setCell (rseen s) n.1 n.2 true) (rcount s) (rborder s)
  else if bool_decide (v ≠ Some EMPTY) then
    mkRegion (rq s) (rseen s) (rcount s) (setAdd (rborder s) v)
  else s.

Definition regionStep (board : Board) (s : Region) : Region :=
  match rq s with
  | [] => s
  | p :: rest =>
      fold_left (regionVisit board) (neighbors (sizeOf board) p.1 p.2)
        (mkRegion rest (rseen s) (rcount s + 1) (rborder s))
  end.

Fixpoint regionLoop (fuel : nat) (board : Board) (s : Region) : option Region :=
  match rq s with
  | [] => Some s
  | _ :: _ =>
      match fuel with
      | O => None
      | S fuel' => regionLoop fuel' board (regionStep board s)
      end
  end.

(** Turns that always suffice: a cell is stacked once, when it is marked
    (see [regionLoop_terminates]). *)
Definition regionFuel (board : Board) : nat :=
  (length board * length board + 2)%nat.

(** State of the second pass: [black], [white], [seen] and [q]. *)
Record Scoring := mkScoring {
  sc_black : Z;
  sc_white : Z;
  sc_seen : Grid bool;
  sc_q : list Pos
}.

Definition regionOwner (border : list (option Z)) : Z :=
  if decide (length border = 1%nat)
  then (if setHas border (Some BLACK) then BLACK else WHITE)
  else 0.

Definition scoreCell (board : Board) (s : Scoring) (r c : Z) : Scoring :=
  if bool_decide (cellAt board r c ≠ Some EMPTY) || isSeen (sc_seen s) (r, c)
  then s
  else
    match regionLoop (regionFuel board) board
            (mkRegion ((r, c) :: sc_q s) (setCell (sc_seen s) r c true) 0 [])
    with
    | None => s
    | Some reg =>
        let owner := regionOwner (rborder reg) in
        if owner =? BLACK
        then mkScoring (sc_black s + rcount reg) (sc_white s) (rseen reg) (rq reg)
        else if owner =? WHITE
        then mkScoring (sc_black s) (sc_white s + rcount reg) (rseen reg) (rq reg)
        else mkScoring (sc_black s) (sc_white s) (rseen reg) (rq reg)
    end.

Definition chineseScore (board : Board) : Score :=
  let size := sizeOf board in
  let s1 := forCells size (countStone board) (mkScore 0 0) in
  let s2 := forCells size (scoreCell board)
              (mkScoring (black s1) (white s1) (makeGrid size false) []) in
  mkScore (sc_black s2) (sc_white s2).

(** ** The environment of the search

    The evaluation function computes on floating point numbers, the
    playouts draw random numbers, and the selector reads a clock and a
    cancellation flag that its caller may set while it is suspended.  The
    numbers are kept abstract; the draws and the readings are taken from
    tapes indexed by the number of readings made so far. *)
Record Env := mkEnv {
  Num : Type;
  (* [heuristic(board, move, color)] *)
  heuristic : Board → Move → Z → Num;
  (* [a > b] *)
  gt : Num → Num → bool;
  (* [-1e9] and [-Infinity] *)
  minusBig : Num;
  minusInfinity : Num;
  (* [wins + heuristic(board, m, color) * 0.1] *)
  mcScore : Z → Num → Num;
  (* [.sort((a, b) => heuristic(board, b, color) - heuristic(board, a, color))] *)
  sortNoncaps : Board → Z → list Move → list Move;
  (* [moves.map(m => ({ m, s: heuristic + Math.random() * 0.3 }))] sorted
     by [s], largest first; only the moves are kept *)
  ranked : nat → Board → Z → list Move → list Move;
  (* [Math.floor(Math.random() * K)] *)
  randomBelow : nat → nat → nat;
  Time : Type;
  (* [performance.now()] *)
  clock : nat → Time;
  (* [now - start > ms] *)
  elapsedOver : Time → Time → Z → bool;
  (* [cancelRef?.current] *)
  cancelFlag : nat → bool
}.

(** What [Array.prototype.sort] and [Math.random] promise. *)
Record EnvLaws (E : Env) : Prop := {
  sortNoncaps_perm : ∀ b c ms, sortNoncaps E b c ms ≡ₚ ms;
  ranked_perm : ∀ i b c ms, ranked E i b c ms ≡ₚ ms;
  randomBelow_lt : ∀ i K, (0 < K)%nat → (randomBelow E i K < K)%nat
}.

(** What [onProgress] is called with: [100], or
    [Math.min(99, Math.round((done / totalWork) * 100))]. *)
Inductive Progress :=
  | Progress100
  | ProgressPart (done totalWork : Z).

(** The position on the tapes and the progress reported so far. *)
Record World := mkWorld { tick : nat; reported : list Progress }.

Definition M (A : Type) : Type := World → A * World.

Global Instance M_ret : MRet M := λ A x w, (x, w).
Global Instance M_bind : MBind M := λ A B f m w, let '(x, w') := m w in f x w'.

Definition advance (w : World) : World := mkWorld (S (tick w)) (reported w).

Definition pollCancel (E : Env) : M bool := λ w, (cancelFlag E (tick w), advance w).
Definition readClock (E : Env) : M (Time E) := λ w, (clock E (tick w), advance w).
Definition rankMoves (E : Env) (board : Board) (color : Z) (moves : list Move)
    : M (list Move) :=
  λ w, (ranked E (tick w) board color moves, advance w).
Definition randomIndex (E : Env) (K : nat) : M nat :=
  λ w, (randomBelow E (tick w) K, advance w).
Definition onProgress (p : Progress) : M unit :=
  λ w, (tt, mkWorld (tick w) (reported w ++ [p])).
(** [await sleep(0)]: the caller runs, the tapes move on. *)
Definition sleep0 : M unit := λ w, (tt, advance w).

(** An array read the program makes only inside the array; outside it JS
    answers [undefined] (see [candidates_nonempty] and [pick_in_range]). *)
Global Instance Move_inhabited : Inhabited Move :=
  populate (mkMove 0 0 (mkRes [] 0) false).

(** ** randomPlayoutWinner *)

(** State of the playout loop; [played] records the moves picked so far
    (it is not a variable of the program). *)
Record Playout := mkPlayout {
  pboard : Board;
  pko : option string;
  lastPass : bool;
  turn : Z;
  played : list Move
}.

(** [replyMoves.length && replyMoves[replyMoves.length - 1].pass &&
     replyMoves.length === 1] *)
Definition replyIsPass (replyMoves : list Move) : bool :=
  negb (length replyMoves =? 0)%nat
  && match last replyMoves with Some m => pass m | None => false end
  && (length replyMoves =? 1)%nat.

(** One turn of the [for (let t = 0; t < plies; t++)] loop; the boolean
    tells whether the loop is left by [break]. *)
Definition playoutPly (E : Env) (s : Playout) : M (Playout * bool) :=
  let moves := legalMoves (pboard s) (turn s) (pko s) in
  scored ← rankMoves E (pboard s) (turn s) moves;
  let K := Nat.min 10 (length scored) in
  idx ← randomIndex E K;
  let pick := scored !!! idx in
  let next := res_board (res pick) in
  let newKey := boardKey next in
  let s' := mkPlayout next (Some newKey) (pass pick) (OTHER (turn s))
              (played s ++ [pick]) in
  if pass pick
  then mret (s', replyIsPass (legalMoves next (OTHER (turn s)) (Some newKey)))
  else mret (s', false).

Fixpoint playoutLoop (E : Env) (plies : nat) (s : Playout) : M Playout :=
  match plies with
  | O => mret s
  | S plies' =>
      '(s', brk) ← playoutPly E s;
      if brk : bool then mret s' else playoutLoop E plies' s'
  end.

Definition playoutStart (startBoard : Board) (colorToPlay : Z) : Playout :=
  mkPlayout (cloneBoard startBoard) None false colorToPlay [].

(** [black > white ? BLACK : WHITE] on the score of the last board. *)
Definition winnerOf (board : Board) : Z :=
  let s := chineseScore board in
  if white s <? black s then BLACK else WHITE.

Definition randomPlayoutWinner (E : Env) (startBoard : Board)
    (colorToPlay plies : Z) : M Z :=
  s ← playoutLoop E (Z.to_nat plies) (playoutStart startBoard colorToPlay);
  mret (winnerOf (pboard s)).

(** ** chooseAIMoveAsync *)

(** [null] when cancelled, else the move. *)
Inductive Outcome :=
  | CANCELLED
  | Chosen (m : Move).

Definition candidateLimit (sz level : Z) : Z :=
  if sz <=? 9 then 18
  else if sz =? 11 then 28
  else if level <=? 2 then 22 else 45.

Definition candidatesOf (E : Env) (board : Board) (color level : Z)
    (moves : list Move) : list Move :=
  let captures := List.filter (λ m, 0 <? captured (res m)) moves in
  let noncaps :=
    take (Z.to_nat (Z.max 0 (candidateLimit (sizeOf board) level
                               - Z.of_nat (length captures))))
      (sortNoncaps E board color
         (List.filter (λ m, captured (res m) =? 0) moves)) in
  let candidates := captures ++ noncaps in
  if (length candidates =? 0)%nat then candidates ++ moves else candidates.

Definition playoutsTable : list Z := [0; 6; 20; 60; 120].
Definition plies9 : list Z := [0; 30; 60; 100; 140].
Definition plies11 : list Z := [0; 40; 80; 120; 160].
Definition plies19 : list Z := [0; 50; 100; 140; 180].

(** [Math.max(1, Math.min(5, level))] *)
Definition clampLevel (level : Z) : Z := Z.max 1 (Z.min 5 level).

(** [timeBudgetMs]; [None] is [Infinity]. *)
Definition timeBudgetMs (blitz : bool) (L sz : Z) : option Z :=
  if blitz then Some 150
  else if L <=? 2 then Some (if sz <=? 9 then 300 else 500)
  else None.

(** [now - start > timeBudgetMs] *)
Definition overBudget (E : Env) (start now : Time E) (budget : option Z) : bool :=
  match budget with
  | Some ms => elapsedOver E start now ms
  | None => false
  end.

(** The loop of the level 1 path; [None] is the early [return null]. *)
Fixpoint level1Loop (E : Env) (board : Board) (color : Z)
    (cands : list Move) (best : Move) (bestS : Num E) : M (option Move) :=
  match cands with
  | [] => mret (Some best)
  | m :: rest =>
      stop ← pollCancel E;
      if stop : bool then mret None
      else
        let s := heuristic E board m color in
        if gt E s bestS then level1Loop E board color rest m s
        else level1Loop E board color rest best bestS
  end.

(** The loop [for (let i = 0; i < playouts; i++)] with [n] turns left;
    it yields [wins] and [done], or [None] for [return null]. *)
Fixpoint playoutsLoop (E : Env) (nextBoard : Board) (color plies : Z)
    (start : Time E) (budget : option Z) (totalWork : Z)
    (n : nat) (i wins done : Z) : M (option (Z * Z)) :=
  match n with
  | O => mret (Some (wins, done))
  | S n' =>
      stop ← pollCancel E;
      if stop : bool then mret None
      else
        now ← readClock E;
        if overBudget E start now budget then mret (Some (wins, done))
        else
          winner ← randomPlayoutWinner E nextBoard (OTHER color) plies;
          let wins' := if winner =? color then wins + 1 else wins in
          let done' := done + 1 in
          _ ← (if i `mod` 8 =? 7
               then _ ← onProgress (ProgressPart done' totalWork); sleep0
               else mret tt);
          playoutsLoop E nextBoard color plies start budget totalWork
            n' (i + 1) wins' done'
  end.

(** The loop over the candidates. *)
Fixpoint candidatesLoop (E : Env) (board : Board) (color playouts plies : Z)
    (start : Time E) (budget : option Z) (totalWork : Z)
    (cands : list Move) (best : Move) (bestScore : Num E) (done : Z)
    : M (option Move) :=
  match cands with
  | [] => mret (Some best)
  | m :: rest =>
      stop ← pollCancel E;
      if stop : bool then mret None
      else
        r ← playoutsLoop E (res_board (res m)) color plies start budget
               totalWork (Z.to_nat playouts) 0 0 done;
        match r with
        | None => mret None
        | Some (wins, done') =>
            let score := mcScore E wins (heuristic E board m color) in
            let better := gt E score bestScore in
            let best' := if better then m else best in
            let bestScore' := if better then score else bestScore in
            _ ← onProgress (ProgressPart done' totalWork);
            _ ← sleep0;
            now2 ← readClock E;
            if overBudget E start now2 budget then mret (Some best')
            else candidatesLoop E board color playouts plies start budget
                   totalWork rest best' bestScore' done'
        end
  end.

Definition finish (r : option Move) : M Outcome :=
  match r with
  | None => mret CANCELLED
  | Some best => _ ← onProgress Progress100; mret (Chosen best)
  end.

Definition chooseAIMoveAsync (E : Env) (board : Board) (color level : Z)
    (koKeyLast : option string) (blitz : bool) : M Outcome :=
  let moves := legalMoves board color koKeyLast in
  if (length moves =? 1)%nat && pass (moves !!! 0%nat)
  then _ ← onProgress Progress100; mret (Chosen (moves !!! 0%nat))
  else
    let sz := sizeOf board in
    let candidates := candidatesOf E board color level moves in
    let L := clampLevel level in
    let playouts := playoutsTable !!! Z.to_nat (L - 1) in
    let plies :=
      (if sz <=? 9 then plies9 else if sz =? 11 then plies11 else plies19)
        !!! Z.to_nat (L - 1) in
    start ← readClock E;
    let budget := timeBudgetMs blitz L sz in
    if L =? 1 then
      r ← level1Loop E board color candidates (candidates !!! 0%nat)
             (minusBig E);
      finish r
    else
      let totalWork :=
        Z.max 1 (Z.of_nat (length candidates) * Z.max 1 playouts) in
      r ← candidatesLoop E board color playouts plies start budget totalWork
             candidates (candidates !!! 0%nat) (minusInfinity E) 0;
      finish r.

(** * The boards as mutable objects

    The functions above take boards as values.  In the program a board is
    an array of row objects, [placeAndCapture] writes into rows, and what
    keeps the caller's board intact is that it writes into the rows of a
    copy.  Here the rows live in a store and a board is the array of the
    references of its rows. *)
Module Store.

Abbreviation Heap := (list (list Z)).
Abbreviation BoardRef := (list nat).

(** The content of the board whose rows are the objects [b]. *)
Definition content (h : Heap) (b : BoardRef) : Board :=
  (λ ref, default [] (h !! ref)) <$> b.

(** [board.map((row) => row.slice())]: every row is copied into a new
    object, and the new array holds the new references. *)
Definition cloneBoard (h : Heap) (board : BoardRef) : Heap * BoardRef :=
  (h ++ (slice <$> content h board), seq (length h) (length board)).

(** [b[r][c] = v] *)
Definition write (h : Heap) (b : BoardRef) (r c v : Z) : Heap :=
  if (0 <=? r) && (0 <=? c) then
    match b !! Z.to_nat r with
    | Some ref => alter (λ row, <[Z.to_nat c := v]> row) ref h
    | None => h
    end
  else h.

Definition removeStones (newB : BoardRef) (st : Heap * Z) (s : Pos)
    : Heap * Z :=
  (write st.1 newB s.1 s.2 EMPTY, st.2 + 1).

Definition captureStep (newB : BoardRef) (opp : Z)
    (st : Heap * Z * list Pos) (n : Pos) : Heap * Z * list Pos :=
  let '(h, captured, seen) := st in
  if decide (cellOf (content h newB) n = Some opp) then
    if setHas seen n then st
    else
      let seen' := setAdd seen n in
      let grp := floodGroup (content h newB) n.1 n.2 in
      if decide (length (liberties grp) = 0%nat)
      then (fold_left (removeStones newB) (stones grp) (h, captured), seen')
      else (h, captured, seen')
  else st.

(** What a call yields: an exception, [null], or the object
    [{ board: newB, captured }]. *)
Inductive Result :=
  | Raised
  | Null
  | Object (board : BoardRef) (captured : Z).

Definition placeAndCapture (h : Heap) (board : BoardRef) (r c color : Z)
    : Heap * Result :=
  match at_ (content h board) r with
  | None => (h, Raised)
  | Some row =>
      if decide (at_ row c = Some EMPTY) then
        let '(h1, newB) := cloneBoard h board in
        let h2 := write h1 newB r c color in
        let '(h3, captured, _) :=
          fold_left (captureStep newB (OTHER color))
            (neighbors (Z.of_nat (length board)) r c) (h2, 0, []) in
        let self := floodGroup (content h3 newB) r c in
        if decide (length (liberties self) = 0%nat) then (h3, Null)
        else (h3, Object newB captured)
      else (h, Null)
  end.

(** The value a result stands for in the last store. *)
Definition resultValue (h : Heap) (res : Result) : Attempt :=
  match res with
  | Raised => Threw
  | Null => ILLEGAL
  | Object b k => Placed (content h b) k
  end.

End Store.

(** * Facts about grids and neighbours *)

Section GridFacts.
Context {A : Type}.
Implicit Types (g : Grid A) (p q : Pos).

Lemma sizeOf_setCell g r c (v : A) : sizeOf (setCell g r c v) = sizeOf g.
Proof.
  unfold sizeOf, setCell. destruct (_ && _); [|done].
  by rewrite length_alter.
Qed.

Lemma cellOf_setCell_ne g p q (v : A) :
  p ≠ q → cellOf (setCell g p.1 p.2 v) q = cellOf g q.
Proof.
  destruct p as [r c], q as [r' c']; simpl. intros Hne.
  unfold cellOf, cellAt, setCell, at_; simpl.
  destruct (Z.leb_spec 0 r), (Z.leb_spec 0 c); simpl; try done.
  destruct (Z.leb_spec 0 r'); [|done].
  destruct (decide (Z.to_nat r = Z.to_nat r')) as [Hr|Hr].
  - rewrite <- Hr. rewrite list_lookup_alter_eq.
    destruct (g !! Z.to_nat r) as [row|]; simpl; [|done].
    destruct (Z.leb_spec 0 c'); [|done].
    rewrite list_lookup_insert_ne; [done|].
    intros Hc. apply Hne. f_equal; lia.
  - by rewrite list_lookup_alter_ne.
Qed.

Lemma cellOf_setCell_eq g p (v : A) :
  is_Some (cellOf g p) → cellOf (setCell g p.1 p.2 v) p = Some v.
Proof.
  destruct p as [r c]; simpl.
  unfold cellOf, cellAt, setCell, at_; simpl.
  destruct (Z.leb_spec 0 r); simpl; [|by intros [? ?]].
  destruct (g !! Z.to_nat r) as [row|] eqn:Hrow; simpl; [|by intros [? ?]].
  destruct (Z.leb_spec 0 c); simpl; [|by intros [? ?]].
  intros [x Hx]. rewrite list_lookup_alter_eq, Hrow. simpl.
  apply list_lookup_insert_eq. by eapply lookup_lt_Some.
Qed.

Lemma cellOf_setCell_None g p q (v : A) :
  cellOf g q = None → cellOf (setCell g p.1 p.2 v) q = None.
Proof.
  intros Hq. destruct (decide (p = q)) as [<-|Hne].
  - destruct p as [r c]; simpl in *.
    unfold cellOf, cellAt, setCell, at_ in *; simpl in *.
    destruct (Z.leb_spec 0 r); simpl; [|done].
    destruct (Z.leb_spec 0 c); simpl.
    + rewrite list_lookup_alter_eq.
      destruct (g !! Z.to_nat r) as [row|] eqn:Hrow; simpl; [|done].
      apply lookup_ge_None. rewrite length_insert. by apply lookup_ge_None.
    + by destruct (g !! Z.to_nat r).
  - by rewrite cellOf_setCell_ne.
Qed.

Lemma cellOf_inBounds_row g p :
  inBounds (sizeOf g) p.1 p.2 = true → is_Some (at_ g p.1).
Proof.
  unfold inBounds, sizeOf, at_. intros H.
  repeat (apply andb_prop in H as [H ?]).
  destruct (Z.leb_spec 0 p.1); [|done].
  apply lookup_lt_is_Some. lia.
Qed.
End GridFacts.

Lemma elem_of_neighbors size r c q :
  q ∈ neighbors size r c ↔
  inBounds size q.1 q.2 = true ∧
  (q = (r - 1, c) ∨ q = (r + 1, c) ∨ q = (r, c - 1) ∨ q = (r, c + 1)).
Proof.
  unfold neighbors. rewrite list_elem_of_In, filter_In, <- list_elem_of_In.
  rewrite !elem_of_cons, elem_of_nil. tauto.
Qed.

Lemma neighbors_inBounds size r c q :
  q ∈ neighbors size r c → inBounds size q.1 q.2 = true.
Proof. rewrite elem_of_neighbors. tauto. Qed.

Lemma neighbors_sym size p q :
  inBounds size p.1 p.2 = true →
  q ∈ neighbors size p.1 p.2 → p ∈ neighbors size q.1 q.2.
Proof.
  rewrite !elem_of_neighbors. intros Hp [_ Hq]. split; [done|].
  destruct p as [r c]; simpl in *.
  destruct Hq as [-> | [-> | [-> | ->]]]; simpl.
  - right; left. f_equal; lia.
  - left. f_equal; lia.
  - right; right; right. f_equal; lia.
  - right; right; left. f_equal; lia.
Qed.

Lemma neighbors_ne size r c q : q ∈ neighbors size r c → q ≠ (r, c).
Proof.
  rewrite elem_of_neighbors. intros [_ H] ->.
  destruct H as [H|[H|[H|H]]]; inversion H; lia.
Qed.

Lemma length_neighbors size r c : (length (neighbors size r c) ≤ 4)%nat.
Proof. unfold neighbors. apply (List.filter_length_le _ [_; _; _; _]). Qed.

Lemma NoDup_neighbors size r c : NoDup (neighbors size r c).
Proof.
  unfold neighbors. apply NoDup_ListNoDup, List.NoDup_filter, NoDup_ListNoDup.
  repeat (apply NoDup_cons; split;
          [rewrite ?elem_of_cons, ?elem_of_nil;
           intros H; repeat destruct H as [H|H]; inversion H; lia|]).
  apply NoDup_nil_2.
Qed.

(** All in-bounds cells of a [size] by [size] board, row by row. *)
Definition allCells (size : Z) : list Pos :=
  r ← seqZ 0 size; c ← seqZ 0 size; [(r, c)].

Lemma elem_of_allCells size p :
  p ∈ allCells size ↔ inBounds size p.1 p.2 = true.
Proof.
  unfold allCells, inBounds. destruct p as [r c]; simpl.
  rewrite list_elem_of_bind. setoid_rewrite list_elem_of_bind.
  setoid_rewrite list_elem_of_singleton. setoid_rewrite elem_of_seqZ.
  rewrite !andb_true_iff, !Z.leb_le, !Z.ltb_lt. split.
  - intros (r' & (c' & [= -> ->] & ?) & ?). lia.
  - intros ?. exists r. split; [|lia]. exists c. split; [done|lia].
Qed.

Lemma length_bind_const {A B} (f : A → list B) (l : list A) (n : nat) :
  (∀ x, length (f x) = n) → length (l ≫= f) = (length l * n)%nat.
Proof.
  intros Hf. induction l as [|x l IH]; [done|].
  rewrite bind_cons, length_app, IH, Hf. simpl. lia.
Qed.

Lemma length_allCells size :
  length (allCells size) = (Z.to_nat size * Z.to_nat size)%nat.
Proof.
  unfold allCells.
  rewrite (length_bind_const _ _ (Z.to_nat size)), length_seqZ; [done|].
  intros r. rewrite (length_bind_const _ _ 1%nat), length_seqZ; [lia|done].
Qed.

(** * The JS sets *)

Section JsSetFacts.
Context {A : Type} `{EqDecision A}.
Implicit Types (s : list A) (x y : A).

Lemma setHas_true s x : setHas s x = true ↔ x ∈ s.
Proof. unfold setHas. apply bool_decide_eq_true. Qed.

Lemma setHas_false s x : setHas s x = false ↔ x ∉ s.
Proof. unfold setHas. apply bool_decide_eq_false. Qed.

Lemma elem_of_setAdd s x y : y ∈ setAdd s x ↔ y ∈ s ∨ y = x.
Proof.
  unfold setAdd. destruct (setHas s x) eqn:Hx.
  - apply setHas_true in Hx. naive_solver.
  - rewrite elem_of_app, list_elem_of_singleton. done.
Qed.

Lemma NoDup_setAdd s x : NoDup s → NoDup (setAdd s x).
Proof.
  intros Hs. unfold setAdd. destruct (setHas s x) eqn:Hx; [done|].
  apply setHas_false in Hx. apply NoDup_app. split_and!; [done| |].
  - intros y Hy ->%list_elem_of_singleton. done.
  - apply NoDup_singleton.
Qed.
End JsSetFacts.

(** * The groups of a board, and what [floodGroup] computes *)

(** [q] is next to [p] and holds [v]. *)
Definition link (board : Board) (v : option Z) (p q : Pos) : Prop :=
  q ∈ neighbors (sizeOf board) p.1 p.2 ∧ cellOf board q = v.

(** [q] is reached from [p] through orthogonally adjacent cells holding [v]:
    for a stone [p] of colour [v], [q] is in the group of [p]. *)
Definition connected (board : Board) (v : option Z) : Pos → Pos → Prop :=
  rtc (link board v).

(** [l] is a liberty of the group of [p]: an empty cell next to it. *)
Definition isLiberty (board : Board) (p l : Pos) : Prop :=
  ∃ q, connected board (cellOf board p) p q ∧
       l ∈ neighbors (sizeOf board) q.1 q.2 ∧ cellOf board l = Some EMPTY.

Section Flood.
Variables (board : Board) (color : option Z) (start : Pos).
Hypothesis color_stone : color ≠ Some EMPTY.

Let size := sizeOf board.

Lemma floodVisit_cases stones st lb n :
  let acc := floodVisit board color stones (st, lb) n in
  (cellOf board n = Some EMPTY ∧ acc = (st, setAdd lb n)) ∨
  (cellOf board n = color ∧ (n ∉ stones) ∧ acc = (n :: st, lb)) ∨
  (cellOf board n ≠ Some EMPTY ∧
   (¬ (cellOf board n = color ∧ n ∉ stones)) ∧ acc = (st, lb)).
Proof.
  unfold floodVisit; simpl.
  destruct (decide (cellOf board n = Some EMPTY)) as [He|He]; [by left|].
  right.
  destruct (bool_decide (cellOf board n = color) && negb (setHas stones n))
    eqn:Hpush.
  - apply andb_prop in Hpush as [Hc%bool_decide_eq_true Hs%negb_true_iff].
    apply setHas_false in Hs. by left.
  - right. split_and!; [done| |done].
    intros [Hc Hs]. apply andb_false_iff in Hpush as [Hp|Hp].
    + by apply bool_decide_eq_false in Hp.
    + apply negb_false_iff, setHas_true in Hp. done.
Qed.

Lemma fold_floodVisit stones ns st lb :
  let acc := fold_left (floodVisit board color stones) ns (st, lb) in
  (∀ q, q ∈ acc.1 ↔
        q ∈ st ∨ (q ∈ ns ∧ cellOf board q = color ∧ q ∉ stones)) ∧
  (∀ q, q ∈ acc.2 ↔ q ∈ lb ∨ (q ∈ ns ∧ cellOf board q = Some EMPTY)) ∧
  (length acc.1 ≤ length st + length ns)%nat ∧
  (NoDup lb → NoDup acc.2).
Proof.
  cbv zeta. revert st lb. induction ns as [|n ns IH]; intros st lb; simpl.
  { split_and!; [set_solver|set_solver|lia|done]. }
  destruct (floodVisit_cases stones st lb n)
    as [[He ->] | [(Hc & Hs & ->) | (He & Hn & ->)]].
  - destruct (IH st (setAdd lb n)) as (H1 & H2 & H3 & H4).
    split_and!.
    + intros q. rewrite H1, elem_of_cons.
      split; [naive_solver|].
      intros [? | ([-> | ?] & ? & ?)]; [tauto|congruence|tauto].
    + intros q. rewrite H2, elem_of_setAdd, elem_of_cons.
      split; [|naive_solver]. intros [[? | ->] | [? ?]]; tauto.
    + lia.
    + intros Hlb. by apply H4, NoDup_setAdd.
  - destruct (IH (n :: st) lb) as (H1 & H2 & H3 & H4).
    split_and!.
    + intros q. rewrite H1, !elem_of_cons.
      split; [|naive_solver]. intros [[-> | ?] | [? ?]]; tauto.
    + intros q. rewrite H2, elem_of_cons.
      split; [naive_solver|].
      intros [? | ([-> | ?] & ?)]; [tauto|congruence|tauto].
    + simpl in H3. lia.
    + done.
  - destruct (IH st lb) as (H1 & H2 & H3 & H4).
    split_and!.
    + intros q. rewrite H1, elem_of_cons.
      split; [naive_solver|]. intros [? | ([-> | ?] & ? & ?)]; tauto.
    + intros q. rewrite H2, elem_of_cons.
      split; [naive_solver|].
      intros [? | ([-> | ?] & ?)]; [tauto|congruence|tauto].
    + lia.
    + done.
Qed.
(** The loop invariant: only cells of the group are stacked or recorded,
    recorded liberties are empty cells next to a recorded stone, and every
    neighbour of a recorded stone has been dealt with. *)
Record floodInv (s : Flood) : Prop := {
  inv_stack : ∀ p, p ∈ stack s → connected board color start p;
  inv_stones : ∀ p, p ∈ fstones s → connected board color start p;
  inv_libs : ∀ l, l ∈ libs s →
    cellOf board l = Some EMPTY ∧
    ∃ p, p ∈ fstones s ∧ l ∈ neighbors size p.1 p.2;
  inv_closed : ∀ p q, p ∈ fstones s → q ∈ neighbors size p.1 p.2 →
    (cellOf board q = Some EMPTY → q ∈ libs s) ∧
    (cellOf board q = color → q ∈ fstones s ∨ q ∈ stack s);
  inv_start : start ∈ fstones s ∨ start ∈ stack s;
  inv_nodup_stones : NoDup (fstones s);
  inv_nodup_libs : NoDup (libs s)
}.

Lemma floodInv_init : floodInv (mkFlood [start] [] []).
Proof.
  split; simpl; try set_solver; try apply NoDup_nil_2.
Qed.

Lemma floodStep_inv s : floodInv s → floodInv (floodStep board color s).
Proof.
  intros [Hst Hsn Hlb Hcl Hs0 Hnd Hndl]. unfold floodStep.
  destruct (stack s) as [|p rest] eqn:Hstack; [by split; rewrite ?Hstack|].
  destruct (setHas (fstones s) p) eqn:Hp.
  - apply setHas_true in Hp. split; simpl; try done.
    + intros q Hq. apply Hst. set_solver.
    + intros a b Ha Hb. destruct (Hcl a b Ha Hb) as [H1 H2].
      split; [done|]. intros Hc. destruct (H2 Hc) as [?|Hin]; [by left|].
      apply elem_of_cons in Hin as [->|?]; [by left|by right].
    + destruct Hs0 as [?|Hin]; [by left|].
      apply elem_of_cons in Hin as [->|?]; [by left|by right].
  - apply setHas_false in Hp.
    destruct (fold_floodVisit (fstones s ++ [p])
                (neighbors (sizeOf board) p.1 p.2) rest (libs s))
      as (H1 & H2 & _ & H4).
    assert (connected board color start p) as Hcp by (apply Hst; set_solver).
    split; simpl.
    + intros q. rewrite H1. intros [?|(Hq & Hc & _)]; [apply Hst; set_solver|].
      eapply rtc_r; [exact Hcp|]. by split.
    + intros q [?| ->%list_elem_of_singleton]%elem_of_app; auto.
    + intros l. rewrite H2. intros [Hl|[Hl He]].
      * destruct (Hlb l Hl) as (? & a & ? & ?). split; [done|].
        exists a. set_solver.
      * split; [done|]. exists p. set_solver.
    + intros a b [Ha| ->%list_elem_of_singleton]%elem_of_app Hb.
      * destruct (Hcl a b Ha Hb) as [Hc1 Hc2]. split.
        -- intros He. apply H2. left. auto.
        -- intros Hc. destruct (Hc2 Hc) as [?|Hin]; [left; set_solver|].
           apply elem_of_cons in Hin as [->|?]; [left; set_solver|].
           right. apply H1. by left.
      * split.
        -- intros He. apply H2. right. done.
        -- intros Hc. destruct (decide (b ∈ fstones s ++ [p])); [by left|].
           right. apply H1. right. done.
    + destruct Hs0 as [?|Hin]; [left; set_solver|].
      apply elem_of_cons in Hin as [->|?]; [left; set_solver|].
      right. apply H1. by left.
    + apply NoDup_app. split_and!; [done| |apply NoDup_singleton].
      by intros x Hx ->%list_elem_of_singleton.
    + by apply H4.
Qed.

(** *** Termination *)

Lemma connected_inBounds p :
  connected board color start p →
  p = start ∨ inBounds size p.1 p.2 = true.
Proof.
  unfold connected. revert p. apply rtc_ind_r; [by left|].
  intros a b _ [Hb _] _. right. by eapply neighbors_inBounds.
Qed.

Lemma floodInv_stones_bound s :
  floodInv s → (length (fstones s) ≤ length board * length board + 1)%nat.
Proof.
  intros Hs.
  assert (fstones s ⊆+ start :: allCells size) as Hsub.
  { apply NoDup_submseteq; [apply Hs|]. intros p Hp.
    destruct (connected_inBounds p (inv_stones _ Hs p Hp)) as [->|Hb].
    - set_solver.
    - apply elem_of_cons. right. by apply elem_of_allCells. }
  apply submseteq_length in Hsub. simpl in Hsub.
  rewrite length_allCells in Hsub. unfold size, sizeOf in Hsub.
  rewrite Nat2Z.id in Hsub. lia.
Qed.

(** What is left to do: the stacked cells, and four possible pushes for
    each cell that is not yet a recorded stone. *)
Definition floodPotential (s : Flood) : nat :=
  (length (stack s) +
   4 * (length board * length board + 1 - length (fstones s)))%nat.

Lemma floodStep_potential s :
  floodInv s → stack s ≠ [] →
  (floodPotential (floodStep board color s) < floodPotential s)%nat.
Proof.
  intros Hs Hne.
  pose proof (floodInv_stones_bound _ (floodStep_inv s Hs)) as Hb.
  revert Hb. unfold floodPotential, floodStep.
  destruct (stack s) as [|p rest] eqn:Hstack; [done|].
  destruct (setHas (fstones s) p); simpl; [lia|].
  destruct (fold_floodVisit (fstones s ++ [p])
              (neighbors (sizeOf board) p.1 p.2) rest (libs s))
    as (_ & _ & H3 & _).
  pose proof (length_neighbors (sizeOf board) p.1 p.2).
  rewrite length_app. simpl. lia.
Qed.

Lemma floodLoop_terminates fuel s :
  floodInv s → (floodPotential s < fuel)%nat →
  ∃ s', floodLoop fuel board color s = Some s' ∧
        floodInv s' ∧ stack s' = [].
Proof.
  revert s. induction fuel as [|fuel IH]; intros s Hs Hlt; [lia|].
  simpl. destruct (stack s) as [|p rest] eqn:Hstack.
  - exists s. rewrite Hstack. done.
  - apply IH; [by apply floodStep_inv|].
    pose proof (floodStep_potential s Hs) as Hd.
    rewrite Hstack in Hd. specialize (Hd ltac:(done)). lia.
Qed.

(** Once the stack is empty the recorded stones are the whole group and
    the recorded liberties all its liberties. *)
Lemma floodInv_complete s p :
  floodInv s → stack s = [] →
  connected board color start p → p ∈ fstones s.
Proof.
  unfold connected. intros Hs Hstack. revert p. apply rtc_ind_r.
  2: intros a b _ [Hb Hc] IH.
  - destruct (inv_start _ Hs) as [?|Hin]; [done|].
    rewrite Hstack in Hin. by apply elem_of_nil in Hin.
  - destruct (inv_closed _ Hs a b IH Hb) as [_ H2].
    destruct (H2 Hc) as [?|Hin]; [done|].
    rewrite Hstack in Hin. by apply elem_of_nil in Hin.
Qed.

End Flood.

(** [floodGroup] on a stone: the loop ends within its bound, and the result
    is the state the loop ends in. *)
Lemma floodGroup_run (board : Board) (p : Pos) :
  cellOf board p ≠ Some EMPTY →
  ∃ s, floodLoop (floodFuel board) board (cellOf board p) (mkFlood [p] [] [])
         = Some s ∧
       floodInv board (cellOf board p) p s ∧ stack s = [] ∧
       floodGroup board p.1 p.2 = mkGroup (cellOf board p) (fstones s) (libs s).
Proof.
  intros Hc.
  destruct (floodLoop_terminates board (cellOf board p) p Hc (floodFuel board)
              (mkFlood [p] [] [])) as (s & Hrun & Hinv & Hstack).
  - by apply floodInv_init.
  - unfold floodPotential, floodFuel. simpl. lia.
  - exists s. split_and!; try done.
    unfold floodGroup. destruct p as [r c]; simpl in *. by rewrite Hrun.
Qed.

(** The stones [floodGroup] returns are the group of the stone it starts
    from, and the liberties it returns are the liberties of that group. *)
Lemma floodGroup_spec (board : Board) (p : Pos) :
  cellOf board p ≠ Some EMPTY →
  (∀ q, q ∈ stones (floodGroup board p.1 p.2) ↔
        connected board (cellOf board p) p q) ∧
  (∀ l, l ∈ liberties (floodGroup board p.1 p.2) ↔ isLiberty board p l) ∧
  NoDup (stones (floodGroup board p.1 p.2)) ∧
  NoDup (liberties (floodGroup board p.1 p.2)).
Proof.
  intros Hc. destruct (floodGroup_run board p Hc) as (s & _ & Hinv & Hst & ->).
  simpl. split_and!.
  - intros q. split; [apply (inv_stones _ _ _ _ Hinv)|].
    by apply floodInv_complete.
  - intros l. split.
    + intros Hl. destruct (inv_libs _ _ _ _ Hinv l Hl) as (He & q & Hq & Hn).
      exists q. split_and!; [by apply (inv_stones _ _ _ _ Hinv)|done|done].
    + intros (q & Hq & Hn & He).
      eapply floodInv_complete in Hq; [|done..].
      by destruct (inv_closed _ _ _ _ Hinv q l Hq Hn) as [H1 _]; auto.
  - apply Hinv.
  - apply Hinv.
Qed.

(** ** Groups are equivalence classes, and survive changes elsewhere *)

Lemma connected_sym (board : Board) (v : option Z) (p q : Pos) :
  inBounds (sizeOf board) p.1 p.2 = true → cellOf board p = v →
  connected board v p q → connected board v q p.
Proof.
  intros Hp Hv H.
  cut (connected board v q p ∧ inBounds (sizeOf board) q.1 q.2 = true ∧
       cellOf board q = v); [tauto|].
  revert q H. apply rtc_ind_r; [by split_and!; [apply rtc_refl|..]|].
  intros a b _ [Hb Hc] (IH & Ha & Hva). split_and!; [|by eapply neighbors_inBounds|done].
  eapply rtc_l; [|exact IH]. split; [|done]. by apply neighbors_sym.
Qed.

Lemma connected_cell (board : Board) (v : option Z) (p q : Pos) :
  cellOf board p = v → connected board v p q → cellOf board q = v.
Proof.
  intros Hv. revert q. apply rtc_ind_r; [done|]. by intros a b _ [_ Hc] _.
Qed.

(** A group is still connected in a board that agrees with the first on
    the cells of the group. *)
Lemma connected_transfer (b b' : Board) (v : option Z) (p q : Pos) :
  sizeOf b' = sizeOf b →
  (∀ x, connected b v p x → x ≠ p → cellOf b' x = cellOf b x) →
  connected b v p q → connected b' v p q.
Proof.
  intros Hsz Hsame H. revert q H Hsame.
  apply (rtc_ind_r (λ q, (∀ x, connected b v p x → x ≠ p → cellOf b' x = cellOf b x)
                         → connected b' v p q)); [intros; apply rtc_refl|].
  intros a z Hpa [Hz Hc] IH Hsame.
  destruct (decide (z = p)) as [->|Hne]; [apply rtc_refl|].
  eapply rtc_r; [by apply IH|]. split; [by rewrite Hsz|].
  rewrite Hsame; [done| |done]. eapply rtc_r; [exact Hpa|done].
Qed.

(** ** The capture loop of [placeAndCapture] *)

Lemma cellOf_setCell {A} (g : Grid A) (p q : Pos) (v : A) :
  cellOf (setCell g p.1 p.2 v) q =
  if decide (p = q) then (λ _, v) <$> cellOf g q else cellOf g q.
Proof.
  destruct (decide (p = q)) as [<-|Hne].
  - destruct (cellOf g p) as [x|] eqn:Hx; simpl.
    + apply cellOf_setCell_eq. by eexists.
    + by apply cellOf_setCell_None.
  - by apply cellOf_setCell_ne.
Qed.

Lemma fold_removeStones (sts : list Pos) (b : Board) (n : Z) :
  (fold_left removeStones sts (b, n)).2 = n + Z.of_nat (length sts) ∧
  sizeOf (fold_left removeStones sts (b, n)).1 = sizeOf b ∧
  ∀ q, cellOf (fold_left removeStones sts (b, n)).1 q =
       if decide (q ∈ sts) then (λ _, EMPTY) <$> cellOf b q else cellOf b q.
Proof.
  revert b n. induction sts as [|s sts IH]; intros b n; simpl.
  { split_and!; [lia|done|done]. }
  change (removeStones (b, n) s) with (setCell b s.1 s.2 EMPTY, n + 1).
  destruct (IH (setCell b s.1 s.2 EMPTY) (n + 1)) as (H1 & H2 & H3).
  split_and!.
  - rewrite H1. lia.
  - by rewrite H2, sizeOf_setCell.
  - intros q. rewrite H3, cellOf_setCell.
    destruct (decide (q ∈ sts)), (decide (s = q)) as [->|];
      try (rewrite decide_True by set_solver);
      try (rewrite decide_False by set_solver); try done.
    by destruct (cellOf b q).
Qed.

(** One neighbour of the placed stone: either nothing changes (and if the
    neighbour is an opponent stone its group has a liberty), or the
    neighbour's group has no liberty and exactly its stones are removed. *)
Lemma captureStep_spec (opp : Z) (newB : Board) (captured : Z)
    (seen : list Pos) (n : Pos) :
  opp ≠ EMPTY → n ∉ seen →
  ∃ newB' captured' seen',
    captureStep opp (newB, captured, seen) n = (newB', captured', seen') ∧
    (∀ x, x ∈ seen' → x ∈ seen ∨ x = n) ∧
    ((newB' = newB ∧ captured' = captured ∧
      (cellOf newB n = Some opp → ∃ l, isLiberty newB n l)) ∨
     (cellOf newB n = Some opp ∧ (∀ l, ¬ isLiberty newB n l) ∧
      sizeOf newB' = sizeOf newB ∧
      ∃ G, (∀ q, q ∈ G ↔ connected newB (Some opp) n q) ∧
           captured' = captured + Z.of_nat (length G) ∧
           ∀ q, cellOf newB' q =
                if decide (q ∈ G) then Some EMPTY else cellOf newB q)).
Proof.
  intros Hopp Hseen. unfold captureStep.
  destruct (decide (cellOf newB n = Some opp)) as [Hn|Hn].
  2: { eexists _, _, _. split; [done|]. split; [by left|]. left. done. }
  apply setHas_false in Hseen as Hs. rewrite Hs.
  assert (cellOf newB n ≠ Some EMPTY) as Hne by (rewrite Hn; congruence).
  destruct (floodGroup_spec newB n Hne) as (Hst & Hlib & _ & _).
  destruct (decide (length (liberties (floodGroup newB n.1 n.2)) = 0%nat))
    as [Hz|Hz].
  - apply nil_length_inv in Hz.
    destruct (fold_removeStones (stones (floodGroup newB n.1 n.2)) newB captured)
      as (H1 & H2 & H3).
    destruct (fold_left removeStones _ _) as [newB' captured'] eqn:Hfold.
    simpl in *. eexists _, _, _. split; [done|].
    split; [intros x; rewrite elem_of_setAdd; tauto|]. right.
    split_and!; [done| |done|].
    + intros l Hl. apply Hlib in Hl. rewrite Hz in Hl. by apply elem_of_nil in Hl.
    + exists (stones (floodGroup newB n.1 n.2)). split_and!.
      * intros q. rewrite Hst, Hn. done.
      * done.
      * intros q. rewrite H3. destruct (decide (q ∈ _)) as [Hq|]; [|done].
        apply Hst in Hq. apply connected_cell in Hq; [|done].
        rewrite Hq, Hn. done.
  - eexists _, _, _. split; [done|].
    split; [intros x; rewrite elem_of_setAdd; tauto|]. left.
    split_and!; [done..|]. intros _.
    destruct (liberties (floodGroup newB n.1 n.2)) as [|l ?] eqn:Hl; [done|].
    exists l. apply Hlib. by left.
Qed.

(** Removing a group that has no liberty leaves the liberties of the other
    groups of that colour in place. *)
Lemma isLiberty_after_capture (newB newB' : Board) (opp : Z) (G : list Pos)
    (n n' l : Pos) :
  opp ≠ EMPTY →
  sizeOf newB' = sizeOf newB →
  cellOf newB n = Some opp →
  (∀ q, q ∈ G ↔ connected newB (Some opp) n q) →
  (∀ q, cellOf newB' q = if decide (q ∈ G) then Some EMPTY else cellOf newB q) →
  inBounds (sizeOf newB) n'.1 n'.2 = true →
  cellOf newB' n' = Some opp →
  isLiberty newB n' l → isLiberty newB' n' l.
Proof.
  intros Hopp Hsz Hno HG Hcells Hb Hn' (q & Hq & Hl & He).
  assert (n' ∉ G) as HnG.
  { intros Hin. rewrite Hcells, decide_True in Hn' by done. congruence. }
  assert (cellOf newB n' = Some opp) as Hn.
  { by rewrite Hcells, decide_False in Hn' by done. }
  rewrite Hn in Hq.
  assert (∀ x, connected newB (Some opp) n' x → x ∉ G) as Hout.
  { intros x Hx Hin. apply HnG, HG. apply HG in Hin.
    eapply rtc_trans; [exact Hin|]. by apply connected_sym. }
  exists q. rewrite Hn', Hsz. split_and!; [|done|].
  - apply (connected_transfer newB); [done| |done].
    intros x Hx _. rewrite Hcells, decide_False; [done|]. by apply Hout.
  - rewrite Hcells, decide_False; [done|]. intros Hin.
    apply HG, connected_cell in Hin; [|done].
    rewrite He in Hin. congruence.
Qed.

Lemma isLiberty_same_group (b : Board) (n q l : Pos) :
  connected b (cellOf b n) n q → isLiberty b q l → isLiberty b n l.
Proof.
  intros Hnq (q' & Hq & Hl & He).
  rewrite (connected_cell b (cellOf b n) n q) in Hq by done.
  exists q'. split_and!; [|done..]. by eapply rtc_trans.
Qed.

(** A path of a board is a path of any board that has the same colour on
    the cells of the first that hold it. *)
Lemma connected_mono (b b' : Board) (v : option Z) (p q : Pos) :
  sizeOf b' = sizeOf b →
  (∀ x, cellOf b x = v → cellOf b' x = v) →
  connected b v p q → connected b' v p q.
Proof.
  intros Hsz Hsame. revert q. apply rtc_ind_r; [apply rtc_refl|].
  intros a z _ [Hz Hc] IH. eapply rtc_r; [exact IH|].
  split; [by rewrite Hsz|auto].
Qed.

Section CapturePhase.
Variables (b0 : Board) (opp : Z).
Hypothesis opp_stone : opp ≠ EMPTY.

(** Invariant of the loop over the neighbours of the placed stone;
    [done] are the neighbours already dealt with. *)
Record phaseInv (done : list Pos) (newB : Board) (captured : Z)
    (seen : list Pos) : Prop := {
  ph_seen : ∀ x, x ∈ seen → x ∈ done;
  ph_size : sizeOf newB = sizeOf b0;
  (* only opponent stones change, and they become empty *)
  ph_cells : ∀ q, cellOf newB q = cellOf b0 q ∨
                  (cellOf b0 q = Some opp ∧ cellOf newB q = Some EMPTY);
  ph_count : 0 ≤ captured;
  ph_some : 0 < captured → ∃ n, n ∈ done ∧ cellOf newB n = Some EMPTY;
  ph_none : captured = 0 → newB = b0;
  (* the opponent neighbours that stay have a liberty *)
  ph_alive : ∀ n, n ∈ done → cellOf newB n = Some opp →
                  ∃ l, isLiberty newB n l;
  (* groups are removed as a whole *)
  ph_whole : ∀ q q', cellOf newB q = Some EMPTY → cellOf b0 q = Some opp →
                  q' ∈ neighbors (sizeOf b0) q.1 q.2 →
                  cellOf b0 q' = Some opp → cellOf newB q' = Some EMPTY;
  (* the stones that stay keep their liberties *)
  ph_keep : ∀ q l, inBounds (sizeOf b0) q.1 q.2 = true →
                  cellOf newB q = Some opp →
                  isLiberty b0 q l → isLiberty newB q l;
  (* only groups without liberty, next to the placed stone, are removed *)
  ph_dead : ∀ q, cellOf newB q = Some EMPTY → cellOf b0 q = Some opp →
                  (∀ l, ¬ isLiberty b0 q l) ∧
                  ∃ n, n ∈ done ∧ connected b0 (Some opp) n q
}.

Lemma phaseInv_init : phaseInv [] b0 0 [].
Proof.
  split; try done; try lia; auto.
  - intros n Hn. by apply elem_of_nil in Hn.
  - intros q q' H1 H2. congruence.
  - intros q H1 H2. congruence.
Qed.

Lemma captureStep_inv (done : list Pos) newB captured seen (n : Pos) :
  (n ∉ done) → (∀ x, x ∈ done ++ [n] → inBounds (sizeOf b0) x.1 x.2 = true) →
  phaseInv done newB captured seen →
  ∃ newB' captured' seen',
    captureStep opp (newB, captured, seen) n = (newB', captured', seen') ∧
    phaseInv (done ++ [n]) newB' captured' seen'.
Proof.
  intros Hn Hbnd [Hseen Hsz Hcells Hcap0 Hcap Hnone Hlibs Hwhole Hkeep Hdead].
  destruct (captureStep_spec opp newB captured seen n opp_stone)
    as (newB' & captured' & seen' & Hstep & Hseen' & Hcase).
  { intros Hin. by apply Hn, Hseen. }
  exists newB', captured', seen'. split; [done|]. clear Hstep.
  assert (∀ x, x ∈ seen' → x ∈ done ++ [n]) as Hseen''.
  { intros x Hx. apply elem_of_app.
    destruct (Hseen' x Hx) as [?| ->]; [left; auto|].
    right. by apply list_elem_of_singleton. }
  destruct Hcase
    as [(-> & -> & Hlib)|(Hno & Hnolib & Hsz' & G & HG & -> & Hcells')].
  - split; try done.
    + intros H. destruct (Hcap H) as (m & ? & ?). exists m. split; [|done].
      apply elem_of_app. by left.
    + intros m [Hm| ->%list_elem_of_singleton]%elem_of_app; auto.
    + intros q Hq1 Hq2. destruct (Hdead q Hq1 Hq2) as (? & m & ? & ?).
      split; [done|]. exists m. split; [|done]. apply elem_of_app. by left.
  - assert (n ∈ G) as HnG by (apply HG, rtc_refl).
    assert (0 < length G)%nat as HlenG.
    { destruct G; [by apply elem_of_nil in HnG|simpl; lia]. }
    assert (∀ q, q ∈ G → cellOf newB q = Some opp ∧ cellOf b0 q = Some opp)
      as HGopp.
    { intros q Hq. apply HG, connected_cell in Hq; [|done]. split; [done|].
      destruct (Hcells q) as [<-|[_ ?]]; [done|congruence]. }
    assert (∀ q, cellOf newB q = Some EMPTY → cellOf newB' q = Some EMPTY)
      as Hstay.
    { intros q Hq. rewrite Hcells'. by destruct (decide (q ∈ G)). }
    assert (∀ q, q ∈ G → inBounds (sizeOf b0) q.1 q.2 = true) as HGb.
    { intros q Hq. apply HG, connected_inBounds in Hq as [->|Hq].
      - apply Hbnd. apply elem_of_app. right. by left.
      - by rewrite <- Hsz. }
    split.
    + done.
    + congruence.
    + intros q. rewrite Hcells'. destruct (decide (q ∈ G)) as [Hq|Hq]; [|done].
      right. split; [|done]. by apply HGopp.
    + lia.
    + intros _. exists n. split; [apply elem_of_app; right; by left|].
      by rewrite Hcells', decide_True.
    + lia.
    + intros m Hm Hmo.
      assert (m ∉ G) as HmG.
      { intros Hin. rewrite Hcells', decide_True in Hmo by done. congruence. }
      apply elem_of_app in Hm as [Hm| ->%list_elem_of_singleton]; [|done].
      destruct (Hlibs m Hm) as [l Hl].
      { by rewrite Hcells', decide_False in Hmo. }
      exists l. eapply isLiberty_after_capture; try done.
      rewrite Hsz. apply Hbnd. apply elem_of_app. by left.
    + intros q q' Hq Hq0 Hq' Hq0'.
      rewrite Hcells' in Hq. destruct (decide (q ∈ G)) as [HqG|HqG].
      * destruct (Hcells q') as [He|[_ He]]; [|by apply Hstay].
        rewrite Hcells', decide_True; [done|].
        apply HG. eapply rtc_r; [by apply HG|].
        split; [by rewrite Hsz|congruence].
      * apply Hstay. by eapply Hwhole.
    + intros q l Hqb Hq Hl.
      assert (q ∉ G) as HqG.
      { intros Hin. rewrite Hcells', decide_True in Hq by done. congruence. }
      eapply isLiberty_after_capture; try done; [by rewrite Hsz|].
      apply Hkeep; [done| |done]. by rewrite Hcells', decide_False in Hq.
    + intros q Hq Hq0. rewrite Hcells' in Hq.
      destruct (decide (q ∈ G)) as [HqG|HqG].
      * split.
        -- intros l Hl. apply (Hnolib l).
           apply (isLiberty_same_group newB n q); [rewrite Hno; by apply HG|].
           apply Hkeep; [by apply HGb|by apply HGopp|done].
        -- exists n. split; [apply elem_of_app; right; by left|].
           apply (connected_mono newB); [done| |by apply HG].
           intros x Hx. destruct (Hcells x) as [<-|[_ ?]]; [done|congruence].
      * destruct (Hdead q Hq Hq0) as (? & m & ? & ?).
        split; [done|]. exists m. split; [|done]. apply elem_of_app. by left.
Qed.

Lemma capture_fold_inv (ns done : list Pos) newB captured seen :
  NoDup ns → (∀ x, x ∈ ns → x ∉ done) →
  (∀ x, x ∈ done ++ ns → inBounds (sizeOf b0) x.1 x.2 = true) →
  phaseInv done newB captured seen →
  ∃ newB' captured' seen',
    fold_left (captureStep opp) ns (newB, captured, seen)
      = (newB', captured', seen') ∧
    phaseInv (done ++ ns) newB' captured' seen'.
Proof.
  revert done newB captured seen.
  induction ns as [|n ns IH]; intros done newB captured seen Hnd Hfresh Hbnd Hinv.
  { rewrite app_nil_r. by eexists _, _, _. }
  cbn [fold_left]. apply NoDup_cons in Hnd as [Hn Hnd].
  replace (done ++ n :: ns) with ((done ++ [n]) ++ ns) in *
    by (by rewrite <- app_assoc).
  destruct (captureStep_inv done newB captured seen n)
    as (newB1 & captured1 & seen1 & -> & Hinv1); [|intros x Hx; apply Hbnd; set_solver|done|].
  { apply Hfresh. by left. }
  apply IH; [done| |done|done].
  intros x Hx [Hd| ->%list_elem_of_singleton]%elem_of_app; [|done].
  apply (Hfresh x); [by right|done].
Qed.
End CapturePhase.

Lemma cloneBoard_id (board : Board) : cloneBoard board = board.
Proof. unfold cloneBoard, slice. apply list_fmap_id. Qed.

Lemma OTHER_stone (color : Z) : OTHER color ≠ EMPTY.
Proof. unfold OTHER. by destruct (color =? BLACK). Qed.

Lemma OTHER_neq (color : Z) : OTHER color ≠ color.
Proof.
  unfold OTHER. destruct (Z.eqb_spec color BLACK) as [->|]; [done|congruence].
Qed.

Lemma OTHER_involutive (color : Z) :
  color = BLACK ∨ color = WHITE → OTHER (OTHER color) = color.
Proof. by intros [-> | ->]. Qed.

(** The capture loop as a whole, started on the board with the stone put
    on it. *)
Lemma capturePhase_inv (board : Board) (r c color : Z) :
  ∃ newB captured seen,
    capturePhase board r c color = (newB, captured) ∧
    phaseInv (setCell board r c color) (OTHER color)
      (neighbors (sizeOf board) r c) newB captured seen.
Proof.
  unfold capturePhase. rewrite cloneBoard_id.
  destruct (capture_fold_inv (setCell board r c color) (OTHER color)
              (OTHER_stone color) (neighbors (sizeOf board) r c) []
              (setCell board r c color) 0 [])
    as (newB & captured & seen & -> & Hinv).
  - apply NoDup_neighbors.
  - intros x _ Hx. by apply elem_of_nil in Hx.
  - intros x Hx. rewrite sizeOf_setCell. by eapply neighbors_inBounds.
  - apply phaseInv_init, OTHER_stone.
  - by exists newB, captured, seen.
Qed.

Lemma placeAndCapture_unfold (board : Board) (r c color : Z) :
  cellAt board r c = Some EMPTY →
  placeAndCapture board r c color =
    let '(newB, captured) := capturePhase board r c color in
    if decide (length (liberties (floodGroup newB r c)) = 0%nat) then ILLEGAL
    else Placed newB captured.
Proof.
  unfold placeAndCapture, cellAt. intros H.
  destruct (at_ board r) as [row|]; [|done].
  by rewrite decide_True.
Qed.

(** After the capture loop the placed stone is on the board, and the self
    check of [placeAndCapture] decides whether its group has a liberty. *)
Lemma placeAndCapture_spec (board : Board) (r c color : Z) :
  color ≠ EMPTY → cellAt board r c = Some EMPTY →
  ∃ newB captured seen,
    capturePhase board r c color = (newB, captured) ∧
    phaseInv (setCell board r c color) (OTHER color)
      (neighbors (sizeOf board) r c) newB captured seen ∧
    cellOf newB (r, c) = Some color ∧
    ((∃ l, isLiberty newB (r, c) l) →
       placeAndCapture board r c color = Placed newB captured) ∧
    ((∀ l, ¬ isLiberty newB (r, c) l) →
       placeAndCapture board r c color = ILLEGAL).
Proof.
  intros Hcolor Hcell.
  destruct (capturePhase_inv board r c color)
    as (newB & captured & seen & Hphase & Hinv).
  exists newB, captured, seen. split; [done|]. split; [done|].
  assert (cellOf newB (r, c) = Some color) as Hp.
  { destruct (ph_cells _ _ _ _ _ _ Hinv (r, c)) as [->|[Ho _]].
    - apply (cellOf_setCell_eq board (r, c)). unfold cellOf; simpl.
      rewrite Hcell. by eexists.
    - rewrite (cellOf_setCell_eq board (r, c)) in Ho.
      + exfalso. apply (OTHER_neq color). congruence.
      + unfold cellOf; simpl. rewrite Hcell. by eexists. }
  split; [done|].
  rewrite placeAndCapture_unfold, Hphase by done.
  assert (cellOf newB (r, c) ≠ Some EMPTY) as Hne by (rewrite Hp; congruence).
  destruct (floodGroup_spec newB (r, c) Hne) as (_ & Hlib & _ & _).
  simpl in Hlib. split.
  - intros [l Hl]. apply Hlib in Hl. rewrite decide_False; [done|].
    destruct (liberties _); [by apply elem_of_nil in Hl|done].
  - intros Hno. rewrite decide_True; [done|].
    destruct (liberties _) as [|l ?]; [done|].
    exfalso. apply (Hno l), Hlib. by left.
Qed.

(** Every opponent group next to the placed stone that has no liberty once
    the stone is put is removed, all of it, by the capture loop. *)
Lemma capture_removes_dead (b0 : Board) (opp : Z) (done : list Pos)
    (newB : Board) (captured : Z) (seen : list Pos) (n q : Pos) :
  opp ≠ EMPTY →
  phaseInv b0 opp done newB captured seen →
  (∀ x, x ∈ done → inBounds (sizeOf b0) x.1 x.2 = true) →
  n ∈ done → cellOf b0 n = Some opp → (∀ l, ¬ isLiberty b0 n l) →
  connected b0 (Some opp) n q → cellOf newB q = Some EMPTY.
Proof.
  intros Hopp Hinv Hbnd Hn Hn0 Hdead.
  assert (∀ x, cellOf newB x = Some opp → cellOf b0 x = Some opp) as Hback.
  { intros x Hx. destruct (ph_cells _ _ _ _ _ _ Hinv x) as [<-|[_ ?]];
      [done|congruence]. }
  assert (cellOf newB n = Some EMPTY) as Hgone.
  { destruct (ph_cells _ _ _ _ _ _ Hinv n) as [Hsame|[_ ?]]; [|done].
    exfalso. rewrite Hn0 in Hsame.
    destruct (ph_alive _ _ _ _ _ _ Hinv n Hn Hsame) as (l & q' & Hq' & Hl & He).
    rewrite Hsame in Hq'. rewrite (ph_size _ _ _ _ _ _ Hinv) in Hl.
    assert (connected b0 (Some opp) n q') as Hq0.
    { apply (connected_mono newB); [by rewrite (ph_size _ _ _ _ _ _ Hinv)|done..]. }
    destruct (ph_cells _ _ _ _ _ _ Hinv l) as [Hl0|[Hl0 _]].
    - apply (Hdead l). exists q'. rewrite Hn0. split_and!; [done..|congruence].
    - assert (cellOf newB q' = Some EMPTY) as Hbad.
      { apply (ph_whole _ _ _ _ _ _ Hinv l q'); [done..| |].
        - apply neighbors_sym; [|done].
          apply connected_inBounds in Hq0 as [->|?]; [by apply Hbnd|done].
        - by apply connected_cell in Hq0. }
      apply connected_cell in Hq'; [|done]. congruence. }
  revert q. apply rtc_ind_r; [done|].
  intros a z Ha [Hz Hc] IH.
  apply (ph_whole _ _ _ _ _ _ Hinv a z); [done| |done..].
  by apply connected_cell in Ha.
Qed.

(** A captured neighbour is a liberty of the placed stone. *)
Lemma empty_neighbor_liberty (b : Board) (p n : Pos) :
  n ∈ neighbors (sizeOf b) p.1 p.2 → cellOf b n = Some EMPTY →
  isLiberty b p n.
Proof. intros Hn He. exists p. split_and!; [apply rtc_refl|done..]. Qed.

(** ** Boards without dead groups *)

(** No stone of [color] on the board belongs to a group without liberty. *)
Definition noDeadGroup (board : Board) (color : Z) : Prop :=
  ∀ p, inBounds (sizeOf board) p.1 p.2 = true →
       cellOf board p = Some color → ∃ l, isLiberty board p l.

Lemma placeAndCapture_Placed_inv (board : Board) (r c color : Z)
    (b' : Board) (k : Z) :
  color ≠ EMPTY →
  placeAndCapture board r c color = Placed b' k →
  cellAt board r c = Some EMPTY ∧
  capturePhase board r c color = (b', k) ∧
  ∃ l, isLiberty b' (r, c) l.
Proof.
  intros Hcolor Hplaced.
  assert (cellAt board r c = Some EMPTY) as Hcell.
  { revert Hplaced. unfold placeAndCapture, cellAt.
    destruct (at_ board r) as [row|]; [|done].
    by destruct (decide (at_ row c = Some EMPTY)). }
  split; [done|].
  destruct (placeAndCapture_spec board r c color Hcolor Hcell)
    as (newB & captured & seen & Hphase & _ & Hp & _ & _).
  rewrite placeAndCapture_unfold, Hphase in Hplaced by done.
  destruct (decide (length (liberties (floodGroup newB r c)) = 0%nat))
    as [|Hlen]; [done|].
  injection Hplaced as <- <-. split; [done|].
  assert (cellOf newB (r, c) ≠ Some EMPTY) as Hne by (rewrite Hp; congruence).
  destruct (floodGroup_spec newB (r, c) Hne) as (_ & Hlib & _ & _).
  simpl in Hlib. destruct (liberties (floodGroup newB r c)) as [|l ?]; [done|].
  exists l. apply Hlib. by left.
Qed.

Lemma connected_dec (board : Board) (p q : Pos) :
  cellOf board p ≠ Some EMPTY →
  Decision (connected board (cellOf board p) p q).
Proof.
  intros Hne. destruct (floodGroup_spec board p Hne) as (Hst & _).
  destruct (decide (q ∈ stones (floodGroup board p.1 p.2))) as [Hq|Hq].
  - left. by apply Hst.
  - right. intros H. by apply Hq, Hst.
Qed.


(** * legalMoves *)

Lemma fold_left_app_bind {A B} (g : A → list B) (xs : list A) (acc : list B) :
  fold_left (λ acc x, acc ++ g x) xs acc = acc ++ (xs ≫= g).
Proof.
  revert acc. induction xs as [|x xs IH]; intros acc; cbn [fold_left].
  - simpl. by rewrite app_nil_r.
  - by rewrite IH, bind_cons, app_assoc.
Qed.

Lemma fold_left_pointwise {A B} (f g : B → A → B) (xs : list A) (acc : B) :
  (∀ a x, f a x = g a x) → fold_left f xs acc = fold_left g xs acc.
Proof.
  intros Hfg. revert acc. induction xs as [|x xs IH]; intros acc; [done|].
  cbn [fold_left]. by rewrite Hfg, IH.
Qed.

(** The moves one cell contributes. *)
Definition cellMoves (board : Board) (color : Z) (koKeyLast : option string)
    (r c : Z) : list Move :=
  legalCell board color koKeyLast r [] c.

Lemma legalCell_app board color koKeyLast r lst c :
  legalCell board color koKeyLast r lst c
  = lst ++ cellMoves board color koKeyLast r c.
Proof.
  unfold cellMoves, legalCell.
  destruct (decide (cellAt board r c = Some EMPTY)); [|by rewrite app_nil_r].
  destruct (placeAndCapture board r c color) as [| |b n];
    try by rewrite app_nil_r.
  destruct (koHit koKeyLast (boardKey b)); [by rewrite app_nil_r|done].
Qed.

(** The placements of [legalMoves], in the order of the two loops. *)
Definition placements (board : Board) (color : Z) (koKeyLast : option string)
    : list Move :=
  seqZ 0 (sizeOf board) ≫= λ r,
    seqZ 0 (sizeOf board) ≫= λ c, cellMoves board color koKeyLast r c.

Lemma legalMoves_eq board color koKeyLast :
  legalMoves board color koKeyLast
  = placements board color koKeyLast ++ [passMove board].
Proof.
  unfold legalMoves, placements. f_equal.
  rewrite <- (app_nil_l (_ ≫= _)), <- fold_left_app_bind.
  apply fold_left_pointwise. intros acc r.
  rewrite <- fold_left_app_bind. apply fold_left_pointwise. intros acc' c.
  apply legalCell_app.
Qed.

Lemma elem_of_cellMoves board color koKeyLast r c m :
  m ∈ cellMoves board color koKeyLast r c ↔
  ∃ b n, cellAt board r c = Some EMPTY ∧
         placeAndCapture board r c color = Placed b n ∧
         koHit koKeyLast (boardKey b) = false ∧
         m = mkMove r c (mkRes b n) false.
Proof.
  unfold cellMoves, legalCell.
  destruct (decide (cellAt board r c = Some EMPTY)) as [He|He].
  2: { split; [by intros ?%elem_of_nil|]. by intros (? & ? & ? & _). }
  destruct (placeAndCapture board r c color) as [| |b n].
  - split; [by intros ?%elem_of_nil|]. by intros (? & ? & _ & ? & _).
  - split; [by intros ?%elem_of_nil|]. by intros (? & ? & _ & ? & _).
  - destruct (koHit koKeyLast (boardKey b)) eqn:Hko.
    + split; [by intros ?%elem_of_nil|].
      intros (? & ? & _ & [= <- <-] & ? & _). congruence.
    + simpl. rewrite list_elem_of_singleton. split.
      * intros ->. by exists b, n.
      * by intros (? & ? & _ & [= <- <-] & _ & ->).
Qed.

Lemma elem_of_placements board color koKeyLast m :
  m ∈ placements board color koKeyLast ↔
  ∃ b n, inBounds (sizeOf board) (mr m) (mc m) = true ∧
         cellAt board (mr m) (mc m) = Some EMPTY ∧
         placeAndCapture board (mr m) (mc m) color = Placed b n ∧
         koHit koKeyLast (boardKey b) = false ∧
         m = mkMove (mr m) (mc m) (mkRes b n) false.
Proof.
  unfold placements, inBounds. rewrite list_elem_of_bind.
  setoid_rewrite list_elem_of_bind. setoid_rewrite elem_of_cellMoves.
  setoid_rewrite elem_of_seqZ. split.
  - intros (r & (c & (b & n & He & Hp & Hko & ->) & Hc) & Hr). simpl.
    exists b, n. split_and!; try done.
    rewrite !andb_true_iff, !Z.leb_le, !Z.ltb_lt. lia.
  - intros (b & n & Hb & He & Hp & Hko & Hm).
    rewrite !andb_true_iff, !Z.leb_le, !Z.ltb_lt in Hb.
    exists (mr m). split; [|lia]. exists (mc m). split; [|lia].
    by exists b, n.
Qed.

Lemma placements_not_pass board color koKeyLast m :
  m ∈ placements board color koKeyLast → pass m = false.
Proof.
  rewrite elem_of_placements. by intros (b & n & _ & _ & _ & _ & ->).
Qed.

(** ** Position keys are not empty on a board with a cell *)

Lemma pretty_N_go_nonempty (x : N) (s : string) :
  s ≠ "" → pretty_N_go x s ≠ "".
Proof.
  revert s. induction (N.lt_wf_0 x) as [x _ IH]; intros s Hs.
  destruct (decide (x = 0%N)) as [->|Hx]; [by rewrite pretty_N_go_0|].
  rewrite pretty_N_go_step by lia. apply IH; [|done].
  apply N.div_lt; lia.
Qed.

Lemma pretty_Z_nonempty (x : Z) : pretty x ≠ "".
Proof.
  destruct x as [|x|x]; [done| |done].
  unfold pretty, pretty_Z, pretty, pretty_positive, pretty, pretty_N.
  rewrite decide_False by done.
  rewrite pretty_N_go_step by lia. by apply pretty_N_go_nonempty.
Qed.

Lemma append_empty (s1 s2 : string) : (s1 +:+ s2) = "" → s1 = "".
Proof. by destruct s1. Qed.

Lemma join_empty (sep : string) (l : list string) (s : string) :
  join sep l = "" → s ∈ l → s = "".
Proof.
  unfold join. induction l as [|x l IH]; [by intros _ ?%elem_of_nil|].
  cbn [String.concat]. destruct l as [|y l].
  - by intros -> ->%list_elem_of_singleton.
  - intros Hcat [->|Hin]%elem_of_cons.
    + by apply append_empty in Hcat.
    + apply IH; [|done].
      assert (x = "") as -> by (by apply append_empty in Hcat).
      simpl in Hcat. destruct sep; [done|discriminate].
Qed.

Lemma boardKey_nonempty (board : Board) (p : Pos) (v : Z) :
  cellOf board p = Some v → boardKey board ≠ "".
Proof.
  unfold cellOf, cellAt, at_. intros Hcell Hkey.
  destruct (0 <=? p.1); [|done].
  destruct (board !! Z.to_nat p.1) as [row|] eqn:Hrow; [|done].
  destruct (0 <=? p.2); [|done].
  apply (join_empty _ _ (join "" (pretty <$> row))) in Hkey.
  - apply (join_empty _ _ (pretty v)) in Hkey.
    + by apply pretty_Z_nonempty in Hkey.
    + apply list_elem_of_fmap. exists v. split; [done|].
      by eapply list_elem_of_lookup_2.
  - apply list_elem_of_fmap. exists row. split; [done|].
    by eapply list_elem_of_lookup_2.
Qed.

(** * Properties of [legalMoves] *)

Lemma koHit_false_iff (ko : option string) (k : string) :
  ko ≠ Some k → koHit ko k = false.
Proof.
  destruct ko as [s|]; [|done]. intros Hne. unfold koHit.
  rewrite (bool_decide_eq_false_2 (k = s)) by congruence.
  apply andb_false_r.
Qed.

Lemma filter_pass_placements board color ko :
  List.filter pass (placements board color ko) = [].
Proof.
  assert (∀ l : list Move, (∀ m, m ∈ l → pass m = false) →
            List.filter pass l = []) as Hnone.
  { induction l as [|m l IH]; [done|]. intros Hl. simpl.
    rewrite (Hl m) by (by left). apply IH. intros m' Hm'. apply Hl. by right. }
  apply Hnone. apply placements_not_pass.
Qed.

Lemma placeAndCapture_Placed_cell (board : Board) (r c color : Z)
    (b : Board) (n : Z) :
  placeAndCapture board r c color = Placed b n → is_Some (cellOf b (r, c)).
Proof.
  intros Hp.
  assert (cellAt board r c = Some EMPTY) as He.
  { revert Hp. unfold placeAndCapture, cellAt.
    destruct (at_ board r) as [row|]; [|done].
    by destruct (decide (at_ row c = Some EMPTY)). }
  rewrite placeAndCapture_unfold in Hp by done.
  destruct (capturePhase_inv board r c color)
    as (newB & k & seen & Hphase & Hinv).
  rewrite Hphase in Hp.
  destruct (decide (length (liberties (floodGroup newB r c)) = 0%nat));
    [done|]. injection Hp as <- <-.
  destruct (ph_cells _ _ _ _ _ _ Hinv (r, c)) as [->|[_ ->]]; [|by eexists].
  rewrite (cellOf_setCell_eq board (r, c)); [by eexists|].
  unfold cellOf; simpl. rewrite He. by eexists.
Qed.

(** C3 as the specification states it fails on the pass entry: after a
    pass the previous key is the key of the board itself, and the pass
    entry, which is always appended, has that key.  On the one by one board
    the only legal move is the pass, and its board has the key ["0"]. *)
Lemma legalMoves_ko_counterexample :
  ¬ (∀ (board : Board) (color : Z) (key : string) (m : Move),
       m ∈ legalMoves board color (Some key) →
       boardKey (res_board (res m)) ≠ key).
Proof.
  intros H.
  apply (H [[EMPTY]] BLACK "0" (passMove [[EMPTY]])).
  - vm_compute. apply list_elem_of_here.
  - vm_compute. reflexivity.
Qed.

Lemma placements_avoid_ko (board : Board) (color : Z) (key : string) (m : Move) :
  m ∈ legalMoves board color (Some key) → pass m = false →
  boardKey (res_board (res m)) ≠ key.
Proof.
  rewrite legalMoves_eq, elem_of_app, list_elem_of_singleton.
  intros [Hm| ->] Hpass; [|done].
  apply elem_of_placements in Hm as (b & n & _ & He & Hp & Hko & ->).
  simpl. intros Hkey. unfold koHit in Hko.
  rewrite (bool_decide_eq_true_2 _ Hkey), andb_true_r in Hko.
  apply negb_false_iff, bool_decide_eq_true in Hko. subst key.
  destruct (placeAndCapture_Placed_cell _ _ _ _ _ _ Hp) as [v Hv].
  by apply boardKey_nonempty in Hv.
Qed.

Lemma placement_listed (board : Board) (color r c : Z) (b : Board) (n : Z)
    (ko : option string) :
  inBounds (sizeOf board) r c = true →
  placeAndCapture board r c color = Placed b n →
  ko ≠ Some (boardKey b) →
  mkMove r c (mkRes b n) false ∈ legalMoves board color ko.
Proof.
  intros Hb Hp Hko.
  rewrite legalMoves_eq, elem_of_app. left.
  apply elem_of_placements. exists b, n. simpl. split_and!; try done.
  - revert Hp. unfold placeAndCapture, cellAt.
    destruct (at_ board r) as [row|]; [|done].
    by destruct (decide (at_ row c = Some EMPTY)).
  - by apply koHit_false_iff.
Qed.

(** A ko on a four by four board: Black has just taken the stone at (1,1)
    by playing (1,2); White may not take back at once, and may after a
    move elsewhere. *)
Definition koBefore : Board :=
  [[0; 1; 2; 0]; [1; 2; 0; 2]; [0; 1; 2; 0]; [0; 0; 0; 0]].
Definition koAfter : Board :=
  [[0; 1; 2; 0]; [1; 0; 1; 2]; [0; 1; 2; 0]; [0; 0; 0; 0]].

Example ko_capture : placeAndCapture koBefore 1 2 BLACK = Placed koAfter 1.
Proof. vm_compute. reflexivity. Qed.

Example ko_retake : placeAndCapture koAfter 1 1 WHITE = Placed koBefore 1.
Proof. vm_compute. reflexivity. Qed.

Example ko_retake_excluded :
  mkMove 1 1 (mkRes koBefore 1) false
    ∉ legalMoves koAfter WHITE (Some (boardKey koBefore)).
Proof.
  intros Hin. by apply placements_avoid_ko in Hin.
Qed.

Example ko_retake_later :
  mkMove 1 1 (mkRes koBefore 1) false
    ∈ legalMoves koAfter WHITE (Some "0120|1012|0120|0200").
Proof.
  apply placement_listed; [done|apply ko_retake|]. vm_compute. congruence.
Qed.

(** C3, amended: no placement of [legalMoves board color (Some key)] leads
    to a board whose key is [key]; and a placement that is legal but for
    its key is listed as soon as the previous key differs from that key
    (or there is none).  The pass entry is listed whatever its key. *)
Theorem legalMoves_simple_ko (board : Board) (color : Z) (key : string) :
  (∀ m, m ∈ legalMoves board color (Some key) → pass m = false →
        boardKey (res_board (res m)) ≠ key) ∧
  (∀ r c b n ko',
      inBounds (sizeOf board) r c = true →
      placeAndCapture board r c color = Placed b n →
      boardKey b = key → ko' ≠ Some key →
      mkMove r c (mkRes b n) false ∈ legalMoves board color ko').
Proof.
  split.
  - apply placements_avoid_ko.
  - intros r c b n ko' Hb Hp <- Hko. by apply placement_listed.
Qed.

(** C4: whatever the board, the colour and the previous key, exactly one
    entry of [legalMoves] is the pass; so the list is never empty. *)
Theorem legalMoves_one_pass (board : Board) (color : Z)
    (koKeyLast : option string) :
  length (List.filter pass (legalMoves board color koKeyLast)) = 1%nat ∧
  legalMoves board color koKeyLast ≠ [].
Proof.
  rewrite legalMoves_eq. split.
  - rewrite List.filter_app, filter_pass_placements. reflexivity.
  - intros Hnil. apply app_eq_nil in Hnil as [_ Hnil]. discriminate.
Qed.

(** C10: the pass is the last entry of [legalMoves]; it captures nothing
    and its board has the content of the input board; every entry before
    it is a placement; so the test the playout makes on the last entry,
    [replyIsPass], holds exactly when the pass is the only legal move. *)
Theorem legalMoves_pass_last (board : Board) (color : Z)
    (koKeyLast : option string) :
  last (legalMoves board color koKeyLast) = Some (passMove board) ∧
  captured (res (passMove board)) = 0 ∧
  res_board (res (passMove board)) = board ∧
  (∀ i m, legalMoves board color koKeyLast !! i = Some m →
          pass m = true →
          S i = length (legalMoves board color koKeyLast)) ∧
  (replyIsPass (legalMoves board color koKeyLast) = true ↔
   legalMoves board color koKeyLast = [passMove board]).
Proof.
  rewrite legalMoves_eq. split_and!.
  - apply last_snoc.
  - reflexivity.
  - apply cloneBoard_id.
  - intros i m Hi Hpass. rewrite length_app. simpl.
    apply lookup_app_Some in Hi as [Hi|[Hlen Hi]].
    + apply list_elem_of_lookup_2, placements_not_pass in Hi. congruence.
    + apply lookup_lt_Some in Hi as Hlt. simpl in Hlt. lia.
  - unfold replyIsPass. rewrite last_snoc, length_app. simpl.
    destruct (placements board color koKeyLast) as [|m ms]; [done|].
    split.
    + rewrite andb_true_iff, Nat.eqb_eq. simpl. lia.
    + intros Heq. apply (f_equal length) in Heq.
      rewrite length_app in Heq. simpl in Heq. lia.
Qed.

(** ** Deciding [noDeadGroup] by running [floodGroup] *)

Definition groupAlive (board : Board) (p : Pos) : bool :=
  negb (length (liberties (floodGroup board p.1 p.2)) =? 0)%nat.

Definition noDeadGroupb (board : Board) (color : Z) : bool :=
  forallb (λ p, if decide (cellOf board p = Some color)
                then groupAlive board p else true)
    (allCells (sizeOf board)).

Lemma groupAlive_spec (board : Board) (p : Pos) :
  cellOf board p ≠ Some EMPTY →
  groupAlive board p = true ↔ ∃ l, isLiberty board p l.
Proof.
  intros Hne. destruct (floodGroup_spec board p Hne) as (_ & Hlib & _ & _).
  unfold groupAlive. rewrite negb_true_iff, Nat.eqb_neq. split.
  - destruct (liberties _) as [|l ?]; [done|]. intros _. exists l.
    apply Hlib. by left.
  - intros [l Hl]. apply Hlib in Hl.
    destruct (liberties _); [by apply elem_of_nil in Hl|done].
Qed.

Lemma noDeadGroupb_spec (board : Board) (color : Z) :
  color ≠ EMPTY →
  noDeadGroupb board color = true ↔ noDeadGroup board color.
Proof.
  intros Hcolor. unfold noDeadGroupb, noDeadGroup.
  rewrite forallb_forall. split.
  - intros H p Hb Hp. specialize (H p).
    rewrite <- list_elem_of_In, elem_of_allCells, decide_True in H by done.
    apply groupAlive_spec; [rewrite Hp; congruence|auto].
  - intros H p Hin. apply list_elem_of_In, elem_of_allCells in Hin.
    destruct (decide (cellOf board p = Some color)) as [Hp|]; [|done].
    apply groupAlive_spec; [rewrite Hp; congruence|auto].
Qed.



(** * The store: [placeAndCapture] writes into its copy only *)

Lemma content_length (h : Store.Heap) (b : Store.BoardRef) :
  length (Store.content h b) = length b.
Proof. unfold Store.content. apply length_fmap. Qed.

Lemma content_lookup (h : Store.Heap) (b : Store.BoardRef) (i : nat) :
  Store.content h b !! i = (λ ref, default [] (h !! ref)) <$> (b !! i).
Proof. unfold Store.content. apply list_lookup_fmap. Qed.

Lemma write_length (h : Store.Heap) (b : Store.BoardRef) (r c v : Z) :
  length (Store.write h b r c v) = length h.
Proof.
  unfold Store.write. destruct (_ && _); [|done].
  destruct (b !! Z.to_nat r); [|done]. apply length_alter.
Qed.

(** A write through [b] leaves the objects that are not rows of [b] as
    they are. *)
Lemma write_frame (h : Store.Heap) (b : Store.BoardRef) (r c v : Z) (ref : nat) :
  ref ∉ b → Store.write h b r c v !! ref = h !! ref.
Proof.
  intros Hout. unfold Store.write. destruct (_ && _); [|done].
  destruct (b !! Z.to_nat r) as [ref'|] eqn:Hr; [|done].
  apply list_lookup_alter_ne. intros ->. apply Hout.
  by eapply list_elem_of_lookup_2.
Qed.

(** On a board whose rows are distinct objects, a write is [setCell] on
    the content. *)
Lemma content_write (h : Store.Heap) (b : Store.BoardRef) (r c v : Z) :
  NoDup b →
  Store.content (Store.write h b r c v) b = setCell (Store.content h b) r c v.
Proof.
  intros Hnd. unfold Store.write, setCell.
  destruct (_ && _); [|done].
  apply list_eq. intros i. rewrite content_lookup.
  destruct (decide (i = Z.to_nat r)) as [->|Hne].
  - rewrite list_lookup_alter_eq, content_lookup.
    destruct (b !! Z.to_nat r) as [ref|] eqn:Hr; simpl; [|done].
    rewrite list_lookup_alter_eq. by destruct (h !! ref).
  - rewrite list_lookup_alter_ne, content_lookup by done.
    destruct (b !! Z.to_nat r) as [ref|] eqn:Hr; [|done].
    destruct (b !! i) as [ref'|] eqn:Hi; simpl; [|done].
    rewrite list_lookup_alter_ne; [done|]. intros ->.
    apply Hne. by eapply NoDup_lookup.
Qed.

Lemma cloneBoard_spec (h : Store.Heap) (board : Store.BoardRef)
    (h1 : Store.Heap) (newB : Store.BoardRef) :
  Store.cloneBoard h board = (h1, newB) →
  Store.content h1 newB = cloneBoard (Store.content h board) ∧
  NoDup newB ∧ length newB = length board ∧
  (∀ ref, ref ∈ newB → (length h ≤ ref)%nat) ∧
  (∀ ref, (ref < length h)%nat → h1 !! ref = h !! ref).
Proof.
  unfold Store.cloneBoard. intros [= <- <-]. split_and!.
  - apply list_eq. intros i. rewrite content_lookup.
    unfold cloneBoard.
    destruct (decide (i < length board)%nat) as [Hlt|Hge].
    + rewrite lookup_seq_lt by done. simpl.
      rewrite lookup_app_r by lia.
      replace (length h + i - length h)%nat with i by lia.
      destruct (_ !! i) eqn:Hi; [done|].
      apply lookup_ge_None in Hi.
      rewrite length_fmap, content_length in Hi. lia.
    + rewrite lookup_seq_ge by lia. simpl. symmetry.
      apply lookup_ge_None. rewrite length_fmap, content_length. lia.
  - apply NoDup_seq.
  - apply length_seq.
  - intros ref Href. apply elem_of_seq in Href. lia.
  - intros ref Href. by apply lookup_app_l.
Qed.

(** The state of the capture loop, read as values. *)
Definition absState (newB : Store.BoardRef) (st : Store.Heap * Z * list Pos)
    : Board * Z * list Pos :=
  (Store.content st.1.1 newB, st.1.2, st.2).

(** The objects that existed in a store of [L] objects are unchanged. *)
Definition sameBelow (L : nat) (h h' : Store.Heap) : Prop :=
  ∀ ref, (ref < L)%nat → h' !! ref = h !! ref.

Lemma sameBelow_trans (L : nat) (h1 h2 h3 : Store.Heap) :
  sameBelow L h1 h2 → sameBelow L h2 h3 → sameBelow L h1 h3.
Proof. intros H12 H23 ref Href. by rewrite H23, H12. Qed.

Section StoreSimulation.
Variables (newB : Store.BoardRef) (L : nat).
Hypothesis newB_distinct : NoDup newB.
Hypothesis newB_fresh : ∀ ref, ref ∈ newB → (L ≤ ref)%nat.

Lemma store_write_sameBelow (h : Store.Heap) (r c v : Z) :
  sameBelow L h (Store.write h newB r c v).
Proof.
  intros ref Href. apply write_frame. intros Hin.
  apply newB_fresh in Hin. lia.
Qed.

Lemma store_fold_removeStones (sts : list Pos) (h : Store.Heap) (k : Z) :
  (Store.content (fold_left (Store.removeStones newB) sts (h, k)).1 newB,
   (fold_left (Store.removeStones newB) sts (h, k)).2)
  = fold_left removeStones sts (Store.content h newB, k) ∧
  sameBelow L h (fold_left (Store.removeStones newB) sts (h, k)).1.
Proof.
  revert h k. induction sts as [|s sts IH]; intros h k; cbn [fold_left].
  { split; [done|]. by intros ref _. }
  change (Store.removeStones newB (h, k) s)
    with (Store.write h newB s.1 s.2 EMPTY, k + 1).
  change (removeStones (Store.content h newB, k) s)
    with (setCell (Store.content h newB) s.1 s.2 EMPTY, k + 1).
  destruct (IH (Store.write h newB s.1 s.2 EMPTY) (k + 1)) as [H1 H2].
  split.
  - by rewrite H1, content_write.
  - eapply sameBelow_trans; [apply store_write_sameBelow|exact H2].
Qed.

Lemma store_captureStep (opp : Z) (st : Store.Heap * Z * list Pos) (n : Pos) :
  absState newB (Store.captureStep newB opp st n)
  = captureStep opp (absState newB st) n ∧
  sameBelow L st.1.1 (Store.captureStep newB opp st n).1.1.
Proof.
  destruct st as [[h k] seen]. unfold absState. simpl.
  destruct (decide (cellOf (Store.content h newB) n = Some opp));
    [|split; [done|by intros ref _]].
  destruct (setHas seen n); [split; [done|by intros ref _]|].
  destruct (decide (length (liberties (floodGroup (Store.content h newB)
                                         n.1 n.2)) = 0%nat));
    [|split; [done|by intros ref _]].
  destruct (store_fold_removeStones
              (stones (floodGroup (Store.content h newB) n.1 n.2)) h k)
    as [H1 H2].
  simpl. split; [|done]. rewrite <- H1.
  by destruct (fold_left (Store.removeStones newB) _ _).
Qed.

Lemma store_capture_fold (opp : Z) (ns : list Pos)
    (st : Store.Heap * Z * list Pos) :
  absState newB (fold_left (Store.captureStep newB opp) ns st)
  = fold_left (captureStep opp) ns (absState newB st) ∧
  sameBelow L st.1.1 (fold_left (Store.captureStep newB opp) ns st).1.1.
Proof.
  revert st. induction ns as [|n ns IH]; intros st; cbn [fold_left].
  { split; [done|by intros ref _]. }
  destruct (store_captureStep opp st n) as [H1 H2].
  destruct (IH (Store.captureStep newB opp st n)) as [H3 H4].
  split.
  - by rewrite H3, H1.
  - by eapply sameBelow_trans.
Qed.
End StoreSimulation.

(** The program on the store computes what the function on values
    computes, and leaves every object that existed as it is. *)
Lemma store_placeAndCapture (h : Store.Heap) (board : Store.BoardRef)
    (r c color : Z) (h' : Store.Heap) (res : Store.Result) :
  Store.placeAndCapture h board r c color = (h', res) →
  Store.resultValue h' res
    = placeAndCapture (Store.content h board) r c color ∧
  sameBelow (length h) h h'.
Proof.
  unfold Store.placeAndCapture, placeAndCapture.
  destruct (at_ (Store.content h board) r) as [row|];
    [|intros [= <- <-]; split; [done|by intros ref _]].
  destruct (decide (at_ row c = Some EMPTY));
    [|intros [= <- <-]; split; [done|by intros ref _]].
  destruct (Store.cloneBoard h board) as [h1 newB] eqn:Hclone.
  destruct (cloneBoard_spec _ _ _ _ Hclone)
    as (Hcontent & Hnd & Hlen & Hfresh & Hsame1).
  destruct (store_capture_fold newB (length h) Hnd Hfresh (OTHER color)
              (neighbors (Z.of_nat (length board)) r c)
              (Store.write h1 newB r c color, 0, [])) as [Hsim Hsame2].
  unfold capturePhase. unfold sizeOf at 1. rewrite content_length.
  revert Hsim Hsame2. unfold absState. cbn [fst snd].
  rewrite content_write, Hcontent by done.
  destruct (fold_left (Store.captureStep newB (OTHER color)) _ _)
    as [[h3 captured] seen] eqn:Hfold.
  cbn [fst snd]. intros <- Hsame2. cbn [fst snd].
  assert (sameBelow (length h) h h3) as Hsame.
  { eapply sameBelow_trans; [|exact Hsame2].
    eapply sameBelow_trans; [exact Hsame1|].
    by apply store_write_sameBelow. }
  destruct (decide (length (liberties (floodGroup (Store.content h3 newB) r c))
                    = 0%nat)); intros [= <- <-]; by split.
Qed.

(** A board all of whose rows are objects of the store. *)
Definition validBoard (h : Store.Heap) (board : Store.BoardRef) : Prop :=
  ∀ ref, ref ∈ board → (ref < length h)%nat.

Lemma sameBelow_content (h h' : Store.Heap) (board : Store.BoardRef) :
  validBoard h board → sameBelow (length h) h h' →
  Store.content h' board = Store.content h board.
Proof.
  intros Hvalid Hsame. unfold Store.content.
  apply list_fmap_ext. intros i ref Hi.
  rewrite Hsame; [done|]. apply Hvalid. by eapply list_elem_of_lookup_2.
Qed.

(** C1: on an empty cell, [placeAndCapture] first removes every opponent
    group next to the placed stone that the stone leaves without liberty,
    and only then looks at the liberties of the placed stone's group.  So a
    placement that captures is never refused; and a placement whose group
    has no liberty after the captures yields [null].  Whatever it yields,
    the rows of the caller's board hold what they held. *)
Theorem placeAndCapture_captures_before_suicide
    (h : Store.Heap) (board : Store.BoardRef) (r c color : Z) :
  validBoard h board →
  color ≠ EMPTY →
  cellAt (Store.content h board) r c = Some EMPTY →
  let input := Store.content h board in
  let b0 := setCell input r c color in
  ∃ h' res newB captured,
    Store.placeAndCapture h board r c color = (h', res) ∧
    capturePhase input r c color = (newB, captured) ∧
    (* the capture loop removes the dead groups around the stone *)
    (∀ n q, n ∈ neighbors (sizeOf input) r c →
            cellOf b0 n = Some (OTHER color) → (∀ l, ¬ isLiberty b0 n l) →
            connected b0 (Some (OTHER color)) n q →
            cellOf newB q = Some EMPTY) ∧
    (* a placement that captures is accepted *)
    ((∃ n, n ∈ neighbors (sizeOf input) r c ∧
           cellOf b0 n = Some (OTHER color) ∧ ∀ l, ¬ isLiberty b0 n l) →
     0 < captured ∧ Store.resultValue h' res = Placed newB captured) ∧
    (* the self check is made on the board after the captures *)
    ((∃ l, isLiberty newB (r, c) l) →
     Store.resultValue h' res = Placed newB captured) ∧
    ((∀ l, ¬ isLiberty newB (r, c) l) → res = Store.Null) ∧
    (* the caller's board is as it was *)
    Store.content h' board = input.
Proof.
  intros Hvalid Hcolor Hcell input b0.
  destruct (Store.placeAndCapture h board r c color) as [h' res] eqn:Hrun.
  destruct (store_placeAndCapture _ _ _ _ _ _ _ Hrun) as [Hval Hsame].
  destruct (placeAndCapture_spec input r c color Hcolor Hcell)
    as (newB & captured & seen & Hphase & Hinv & Hp & Hplaced & Hillegal).
  fold input in Hval. fold b0 in Hinv.
  exists h', res, newB, captured.
  assert (∀ n q, n ∈ neighbors (sizeOf input) r c →
            cellOf b0 n = Some (OTHER color) → (∀ l, ¬ isLiberty b0 n l) →
            connected b0 (Some (OTHER color)) n q →
            cellOf newB q = Some EMPTY) as Hdead.
  { intros n q Hn Hn0 Hnolib Hq.
    eapply (capture_removes_dead b0 (OTHER color)); try done.
    - apply OTHER_stone.
    - intros x Hx. unfold b0. rewrite sizeOf_setCell.
      by eapply neighbors_inBounds. }
  split_and!; try done.
  - intros (n & Hn & Hn0 & Hnolib).
    assert (cellOf newB n = Some EMPTY) as He.
    { by apply (Hdead n n). }
    split.
    + pose proof (ph_count _ _ _ _ _ _ Hinv) as H0.
      destruct (decide (captured = 0)) as [Hz|]; [|lia].
      apply (ph_none _ _ _ _ _ _ Hinv) in Hz. subst newB.
      exfalso. apply (OTHER_stone color). congruence.
    + rewrite Hval. apply Hplaced. exists n.
      apply empty_neighbor_liberty; [|done].
      rewrite (ph_size _ _ _ _ _ _ Hinv). unfold b0.
      by rewrite sizeOf_setCell.
  - intros Hl. rewrite Hval. by apply Hplaced.
  - intros Hno. apply Hillegal in Hno. rewrite Hno in Hval.
    by destruct res.
  - by apply sameBelow_content.
Qed.

Lemma placeAndCapture_captures_before_suicide_witness :
  ∃ h' res,
    Store.placeAndCapture koBefore [0; 1; 2; 3]%nat 1 2 BLACK = (h', res) ∧
    Store.resultValue h' res = Placed koAfter 1 ∧
    Store.content h' [0; 1; 2; 3]%nat = koBefore.
Proof.
  destruct (placeAndCapture_captures_before_suicide
              koBefore [0; 1; 2; 3]%nat 1 2 BLACK)
    as (h' & res & newB & captured & Hrun & Hphase & _ & _ & _ & _ & Hsame).
  - intros ref Href. vm_compute. set_solver.
  - done.
  - vm_compute. reflexivity.
  - exists h', res. split; [done|]. split; [|done].
    vm_compute in Hrun. by injection Hrun as <- <-.
Defined.

(** * The playout and the move selector *)

(** An environment in which nothing is cancelled, no time passes, the
    rankings keep the order of [legalMoves] and every draw is 0. *)
Definition quietEnv : Env :=
  mkEnv unit (λ _ _ _, tt) (λ _ _, false) tt tt (λ _ _, tt)
    (λ _ _ ms, ms) (λ _ _ _ ms, ms) (λ _ _, 0%nat)
    unit (λ _, tt) (λ _ _ _, false) (λ _, false).

Lemma quietEnv_laws : EnvLaws quietEnv.
Proof. split; simpl; [done|done|lia]. Qed.

(** The same, but the draws of the first two plies of a playout started
    at tick 0 fall on the last of the ranked moves. *)
Definition passingEnv : Env :=
  mkEnv unit (λ _ _ _, tt) (λ _ _, false) tt tt (λ _ _, tt)
    (λ _ _ ms, ms) (λ _ _ _ ms, ms)
    (λ i K, if (i <? 4)%nat then (K - 1)%nat else 0%nat)
    unit (λ _, tt) (λ _ _ _, false) (λ _, false).

Lemma passingEnv_laws : EnvLaws passingEnv.
Proof. split; simpl; [done|done|]. intros i K HK. destruct (i <? 4)%nat; lia. Qed.

Definition world0 : World := mkWorld 0 [].

(** ** The playout *)

Lemma playoutPly_played (E : Env) (s : Playout) (w : World) :
  length (played (playoutPly E s w).1.1) = S (length (played s)).
Proof.
  unfold playoutPly, rankMoves, randomIndex, mbind, M_bind, mret, M_ret. simpl.
  destruct (pass _); simpl; rewrite length_app; simpl; lia.
Qed.

Lemma playoutLoop_played (E : Env) (plies : nat) (s : Playout) (w : World) :
  (length (played (playoutLoop E plies s w).1)
   ≤ length (played s) + plies)%nat.
Proof.
  revert s w. induction plies as [|n IH]; intros s w; simpl.
  { unfold mret, M_ret. simpl. lia. }
  unfold mbind, M_bind.
  pose proof (playoutPly_played E s w) as Hp.
  destruct (playoutPly E s w) as [[s' brk] w']. simpl in Hp.
  destruct brk.
  - unfold mret, M_ret. simpl. lia.
  - specialize (IH s' w'). lia.
Qed.

(** The loop is left early exactly when the move picked is a pass and the
    pass is the only entry of the opponent's [legalMoves]. *)
Lemma playoutPly_break (E : Env) (s : Playout) (w : World) :
  let r := playoutPly E s w in
  let pick := default inhabitant (last (played r.1.1)) in
  r.1.2 = pass pick
          && bool_decide (placements (pboard r.1.1) (turn r.1.1) (pko r.1.1) = []).
Proof.
  unfold playoutPly, rankMoves, randomIndex, mbind, M_bind, mret, M_ret.
  cbv zeta beta.
  set (pick := _ !!! _).
  destruct (pass pick) eqn:Hpass;
    cbn [fst snd played pboard turn pko]; rewrite last_snoc;
    cbn [default id]; rewrite Hpass; [|done].
  rewrite legalMoves_eq. unfold replyIsPass.
  rewrite last_snoc, length_app.
  destruct (placements _ _ _) as [|m ms]; [done|].
  rewrite bool_decide_eq_false_2 by done.
  cbn [andb]. apply andb_false_iff. right.
  apply Nat.eqb_neq. simpl. lia.
Qed.

(** C7: the code does not stop on two consecutive passes.  On the empty
    two by two board, with draws that pick the pass at the first and at the
    second ply, a playout of three plies plays all three: pass, pass, and a
    stone.  (The loop is left early only when the pass is the only legal
    move of the opponent, see [playoutPly_break].) *)
Theorem playout_continues_after_two_passes :
  pass <$> played (playoutLoop passingEnv 3
                     (playoutStart (makeBoard 2) BLACK) world0).1
  = [true; true; false].
Proof. vm_compute. reflexivity. Qed.

Lemma randomPlayoutWinner_eq (E : Env) (startBoard : Board)
    (colorToPlay plies : Z) (w : World) :
  (randomPlayoutWinner E startBoard colorToPlay plies w).1
  = winnerOf (pboard (playoutLoop E (Z.to_nat plies)
                        (playoutStart startBoard colorToPlay) w).1).
Proof.
  unfold randomPlayoutWinner, mbind, M_bind, mret, M_ret.
  by destruct (playoutLoop E _ _ w).
Qed.

(** C8: the playout names the colour with the larger area on the last
    board of the playout, and WHITE when the areas are equal. *)
Theorem randomPlayoutWinner_higher_area (E : Env) (startBoard : Board)
    (colorToPlay plies : Z) (w : World) :
  let final := pboard (playoutLoop E (Z.to_nat plies)
                         (playoutStart startBoard colorToPlay) w).1 in
  let winner := (randomPlayoutWinner E startBoard colorToPlay plies w).1 in
  (white (chineseScore final) < black (chineseScore final) → winner = BLACK) ∧
  (black (chineseScore final) < white (chineseScore final) → winner = WHITE) ∧
  (black (chineseScore final) = white (chineseScore final) → winner = WHITE).
Proof.
  intros final winner. unfold winner. rewrite randomPlayoutWinner_eq.
  fold final. unfold winnerOf.
  destruct (Z.ltb_spec (white (chineseScore final)) (black (chineseScore final)));
    split_and!; intros; (done || lia).
Qed.

(** ** The move selector *)

Lemma candidatesOf_subset (E : Env) (board : Board) (color level : Z)
    (moves : list Move) (m : Move) :
  EnvLaws E → m ∈ candidatesOf E board color level moves → m ∈ moves.
Proof.
  intros HE. unfold candidatesOf.
  set (captures := List.filter _ moves).
  set (noncaps := take _ _).
  assert (∀ x, x ∈ captures ++ noncaps → x ∈ moves) as Hsub.
  { intros x [Hx|Hx]%elem_of_app.
    - apply list_elem_of_In, filter_In in Hx as [Hx _].
      by apply list_elem_of_In.
    - apply elem_of_take in Hx as (i & Hx & _).
      apply list_elem_of_lookup_2 in Hx.
      rewrite (sortNoncaps_perm E HE) in Hx.
      apply list_elem_of_In, filter_In in Hx as [Hx _].
      by apply list_elem_of_In. }
  destruct (length (captures ++ noncaps) =? 0)%nat; [|by apply Hsub].
  intros [Hx|Hx]%elem_of_app; [by apply Hsub|done].
Qed.

Lemma candidates_nonempty (E : Env) (board : Board) (color level : Z)
    (moves : list Move) :
  moves ≠ [] → candidatesOf E board color level moves ≠ [].
Proof.
  intros Hne. unfold candidatesOf.
  destruct (length _ =? 0)%nat eqn:Hlen.
  - intros [_ ?]%app_eq_nil. done.
  - apply Nat.eqb_neq in Hlen. intros Hnil. by rewrite Hnil in Hlen.
Qed.

Lemma lookup_total_head (l : list Move) : l ≠ [] → l !!! 0%nat ∈ l.
Proof. destruct l as [|m l]; [done|]. intros _. by left. Qed.

Lemma level1Loop_in (E : Env) (board : Board) (color : Z) (cands : list Move)
    (best : Move) (bestS : Num E) (w w' : World) (m : Move) :
  level1Loop E board color cands best bestS w = (Some m, w') →
  m = best ∨ m ∈ cands.
Proof.
  revert best bestS w. induction cands as [|x cands IH]; intros best bestS w.
  { intros [= -> _]. by left. }
  cbn [level1Loop]. unfold mbind, M_bind, pollCancel.
  destruct (cancelFlag E (tick w)); [done|].
  destruct (gt E _ bestS); intros [->|Hin]%IH;
    [right; by left|right; by right|by left|right; by right].
Qed.

Lemma level1Loop_quiet (E : Env) (board : Board) (color : Z)
    (cands : list Move) (best : Move) (bestS : Num E) (w : World) :
  (∀ i, cancelFlag E i = false) →
  ∃ m, (level1Loop E board color cands best bestS w).1 = Some m.
Proof.
  intros Hquiet. revert best bestS w.
  induction cands as [|x cands IH]; intros best bestS w; [by exists best|].
  cbn [level1Loop]. unfold mbind, M_bind, pollCancel. rewrite Hquiet.
  destruct (gt E _ bestS); apply IH.
Qed.

Lemma playoutsLoop_quiet (E : Env) (nextBoard : Board) (color plies : Z)
    (start : Time E) (budget : option Z) (totalWork : Z)
    (n : nat) (i wins done : Z) (w : World) :
  (∀ i, cancelFlag E i = false) →
  ∃ r, (playoutsLoop E nextBoard color plies start budget totalWork
          n i wins done w).1 = Some r.
Proof.
  intros Hquiet. revert i wins done w.
  induction n as [|n IH]; intros i wins done w; [by eexists|].
  cbn [playoutsLoop]. unfold mbind, M_bind, pollCancel, readClock.
  rewrite Hquiet.
  destruct (overBudget E start _ budget); [by eexists|].
  destruct (randomPlayoutWinner E nextBoard (OTHER color) plies _)
    as [winner w1].
  destruct (i `mod` 8 =? 7).
  - unfold onProgress, sleep0. apply IH.
  - unfold mret, M_ret. apply IH.
Qed.

Lemma candidatesLoop_in (E : Env) (board : Board) (color playouts plies : Z)
    (start : Time E) (budget : option Z) (totalWork : Z)
    (cands : list Move) (best : Move) (bestScore : Num E) (done : Z)
    (w w' : World) (m : Move) :
  candidatesLoop E board color playouts plies start budget totalWork
    cands best bestScore done w = (Some m, w') →
  m = best ∨ m ∈ cands.
Proof.
  revert best bestScore done w.
  induction cands as [|x cands IH]; intros best bestScore done w.
  { intros [= -> _]. by left. }
  cbn [candidatesLoop]. unfold mbind, M_bind, pollCancel.
  destruct (cancelFlag E (tick w)); [done|].
  destruct (playoutsLoop E _ color plies start budget totalWork _ 0 0 done _)
    as [[[wins done']|] w1]; [|done].
  unfold onProgress, sleep0, readClock.
  destruct (gt E _ bestScore);
    (destruct (overBudget E start _ budget);
     [intros [= <- _]|intros [->|Hin]%IH]);
    first [by left | right; by left | right; by right].
Qed.

Lemma candidatesLoop_quiet (E : Env) (board : Board) (color playouts plies : Z)
    (start : Time E) (budget : option Z) (totalWork : Z)
    (cands : list Move) (best : Move) (bestScore : Num E) (done : Z)
    (w : World) :
  (∀ i, cancelFlag E i = false) →
  ∃ m, (candidatesLoop E board color playouts plies start budget totalWork
          cands best bestScore done w).1 = Some m.
Proof.
  intros Hquiet. revert best bestScore done w.
  induction cands as [|x cands IH]; intros best bestScore done w;
    [by exists best|].
  cbn [candidatesLoop]. unfold mbind, M_bind, pollCancel. rewrite Hquiet.
  destruct (playoutsLoop_quiet E (res_board (res x)) color plies start budget
              totalWork (Z.to_nat playouts) 0 0 done (advance w) Hquiet)
    as [[wins done'] Hr].
  destruct (playoutsLoop E _ color plies start budget totalWork _ 0 0 done _)
    as [r w1]. simpl in Hr. subst r.
  unfold onProgress, sleep0, readClock.
  destruct (overBudget E start _ budget); [by eexists|]. apply IH.
Qed.

Lemma finish_Chosen (r : option Move) (w w' : World) (m : Move) :
  finish r w = (Chosen m, w') → r = Some m.
Proof. destruct r; [|done]. by intros [= ->]. Qed.

(** C6: a move [chooseAIMoveAsync] returns is an entry of
    [legalMoves board color koKeyLast], at every level; and when the
    cancellation flag is never set it does return a move. *)
Theorem chooseAIMoveAsync_legal (E : Env) (board : Board) (color level : Z)
    (koKeyLast : option string) (blitz : bool) (w : World) :
  EnvLaws E →
  (∀ m w', chooseAIMoveAsync E board color level koKeyLast blitz w
           = (Chosen m, w') →
           m ∈ legalMoves board color koKeyLast) ∧
  ((∀ i, cancelFlag E i = false) →
   ∃ m w', chooseAIMoveAsync E board color level koKeyLast blitz w
           = (Chosen m, w')).
Proof.
  intros HE.
  assert (legalMoves board color koKeyLast ≠ []) as Hmoves.
  { rewrite legalMoves_eq. intros [_ ?]%app_eq_nil. done. }
  pose proof (candidates_nonempty E board color level _ Hmoves) as Hcne.
  pose proof (lookup_total_head _ Hcne) as Hc0.
  assert (∀ m, m ∈ candidatesOf E board color level
                     (legalMoves board color koKeyLast) →
               m ∈ legalMoves board color koKeyLast) as Hsub.
  { intros m. by apply candidatesOf_subset. }
  unfold chooseAIMoveAsync.
  destruct ((length (legalMoves board color koKeyLast) =? 1)%nat
            && pass (legalMoves board color koKeyLast !!! 0%nat)).
  { split.
    - intros m w' [= <- _]. by apply lookup_total_head.
    - intros _. by eexists _, _. }
  unfold mbind, M_bind, readClock.
  destruct (clampLevel level =? 1).
  - split.
    + intros m w'.
      destruct (level1Loop E board color _ _ _ _) as [r w1] eqn:Hloop.
      intros ->%finish_Chosen.
      apply level1Loop_in in Hloop as [->|Hin]; auto.
    + intros Hquiet.
      destruct (level1Loop_quiet E board color
                  (candidatesOf E board color level
                     (legalMoves board color koKeyLast))
                  (candidatesOf E board color level
                     (legalMoves board color koKeyLast) !!! 0%nat)
                  (minusBig E) (advance w) Hquiet) as [m Hm].
      destruct (level1Loop E board color _ _ _ _) as [r w1].
      simpl in Hm. subst r. by eexists _, _.
  - split.
    + intros m w'.
      destruct (candidatesLoop E board color _ _ _ _ _ _ _ _ _ _)
        as [r w1] eqn:Hloop.
      intros ->%finish_Chosen.
      apply candidatesLoop_in in Hloop as [->|Hin]; auto.
    + intros Hquiet.
      match goal with
      | |- context [candidatesLoop E board color ?po ?pl ?st ?bu ?tw ?cs ?b ?bs ?d ?w0] =>
          destruct (candidatesLoop_quiet E board color po pl st bu tw cs b bs d w0 Hquiet)
            as [m Hm];
          destruct (candidatesLoop E board color po pl st bu tw cs b bs d w0)
            as [r w1]
      end.
      simpl in Hm. subst r. by eexists _, _.
Qed.

Lemma chooseAIMoveAsync_legal_witness :
  ∃ m w', chooseAIMoveAsync quietEnv (makeBoard 2) BLACK 2 None false world0
          = (Chosen m, w') ∧
          m ∈ legalMoves (makeBoard 2) BLACK None.
Proof.
  destruct (chooseAIMoveAsync_legal quietEnv (makeBoard 2) BLACK 2 None false
              world0 quietEnv_laws) as [Hin Hrun].
  destruct Hrun as (m & w' & Hrun); [done|].
  exists m, w'. split; [exact Hrun|]. by eapply Hin.
Defined.

(** ** Levels outside 1..5 *)

Lemma clampLevel_idemp (level : Z) :
  clampLevel (clampLevel level) = clampLevel level.
Proof. unfold clampLevel. lia. Qed.

Lemma candidateLimit_clamp (sz level : Z) :
  candidateLimit sz (clampLevel level) = candidateLimit sz level.
Proof.
  unfold candidateLimit, clampLevel.
  destruct (sz <=? 9); [done|]. destruct (sz =? 11); [done|].
  destruct (Z.leb_spec level 2), (Z.leb_spec (Z.max 1 (Z.min 5 level)) 2);
    (done || lia).
Qed.

(** C9 as the specification states it fails: with level 0 the selector
    returns a move (here the only legal one, the pass). *)
Lemma chooseAIMoveAsync_level_counterexample :
  ¬ (∀ (E : Env) (board : Board) (color level : Z) (ko : option string)
       (blitz : bool) (w : World),
       level < 1 ∨ 5 < level →
       ∀ m w', chooseAIMoveAsync E board color level ko blitz w
               ≠ (Chosen m, w')).
Proof.
  intros H.
  apply (H quietEnv [[EMPTY]] BLACK 0 None false world0 ltac:(lia)
           (passMove [[EMPTY]]) (mkWorld 0 [Progress100])).
  vm_compute. reflexivity.
Qed.

(** C9, amended: a level outside 1..5 does not make the selector fail; the
    level is clamped, so the selector does what it does at level 1 for a
    level below 1 and what it does at level 5 for a level above 5. *)
Theorem chooseAIMoveAsync_level_clamped (E : Env) (board : Board)
    (color level : Z) (koKeyLast : option string) (blitz : bool) :
  chooseAIMoveAsync E board color level koKeyLast blitz
  = chooseAIMoveAsync E board color (clampLevel level) koKeyLast blitz ∧
  1 ≤ clampLevel level ≤ 5 ∧
  (level < 1 → clampLevel level = 1) ∧
  (5 < level → clampLevel level = 5).
Proof.
  split; [|unfold clampLevel; lia].
  unfold chooseAIMoveAsync, candidatesOf.
  by rewrite clampLevel_idemp, candidateLimit_clamp.
Qed.

(** * Area scoring *)

(** The value [v], not EMPTY, is met next to the empty region of [p]. *)
Definition bordered (board : Board) (p : Pos) (v : option Z) : Prop :=
  v ≠ Some EMPTY ∧
  ∃ q n, connected board (Some EMPTY) p q ∧
         n ∈ neighbors (sizeOf board) q.1 q.2 ∧ cellOf board n = v.

(** The grid [seen] has a cell for every cell of the board. *)
Definition seenShape (size : Z) (seen : Grid bool) : Prop :=
  ∀ x, inBounds size x.1 x.2 = true → is_Some (cellOf seen x).

Lemma seenShape_makeGrid (size : Z) : seenShape size (makeGrid size false).
Proof.
  intros [r c]. unfold inBounds, makeGrid, cellOf, cellAt, at_. simpl.
  rewrite !andb_true_iff, !Z.leb_le, !Z.ltb_lt. intros Hb.
  destruct (Z.leb_spec 0 r); [|lia]. destruct (Z.leb_spec 0 c); [|lia].
  rewrite lookup_replicate_2 by lia. rewrite lookup_replicate_2 by lia.
  by eexists.
Qed.

Lemma isSeen_makeGrid (size : Z) (x : Pos) : isSeen (makeGrid size false) x = false.
Proof.
  unfold isSeen, makeGrid, cellOf, cellAt, at_.
  destruct (0 <=? x.1); [|done].
  destruct (replicate _ _ !! _) as [row|] eqn:Hrow; [|done].
  apply lookup_replicate in Hrow as [-> _].
  destruct (0 <=? x.2); [|done].
  destruct (replicate _ _ !! _) as [b|] eqn:Hb; [|done].
  by apply lookup_replicate in Hb as [-> _].
Qed.

Lemma seenShape_setCell (size : Z) (seen : Grid bool) (n : Pos) (b : bool) :
  seenShape size seen → seenShape size (setCell seen n.1 n.2 b).
Proof.
  intros Hs x Hx. rewrite cellOf_setCell.
  destruct (decide (n = x)); [|by apply Hs].
  destruct (Hs x Hx) as [y ->]. by eexists.
Qed.

Lemma isSeen_setCell (size : Z) (seen : Grid bool) (n x : Pos) :
  seenShape size seen → inBounds size n.1 n.2 = true →
  isSeen (setCell seen n.1 n.2 true) x
  = if decide (n = x) then true else isSeen seen x.
Proof.
  intros Hs Hn. unfold isSeen. rewrite cellOf_setCell.
  destruct (decide (n = x)) as [<-|]; [|done].
  by destruct (Hs n Hn) as [y ->].
Qed.

Section RegionVisit.
Variable board : Board.
Let size := sizeOf board.

Lemma regionVisit_cases (s : Region) (n : Pos) :
  (cellOf board n = Some EMPTY ∧ isSeen (rseen s) n = false ∧
   regionVisit board s n
   = mkRegion (n :: rq s) (setCell (rseen s) n.1 n.2 true)
       (rcount s) (rborder s)) ∨
  (cellOf board n ≠ Some EMPTY ∧
   regionVisit board s n
   = mkRegion (rq s) (rseen s) (rcount s) (setAdd (rborder s) (cellOf board n))) ∨
  (cellOf board n = Some EMPTY ∧ isSeen (rseen s) n = true ∧
   regionVisit board s n = s).
Proof.
  unfold regionVisit.
  destruct (decide (cellOf board n = Some EMPTY)) as [He|He].
  - rewrite (bool_decide_eq_true_2 _ He).
    destruct (isSeen (rseen s) n) eqn:Hs; simpl.
    + right; right. split_and!; [done..|].
      by rewrite bool_decide_eq_false_2 by (by intros ?).
    + by left.
  - rewrite (bool_decide_eq_false_2 _ He). simpl.
    rewrite (bool_decide_eq_true_2 _ He). right; left. done.
Qed.

Lemma regionVisit_fold (ns : list Pos) (s : Region) :
  seenShape size (rseen s) →
  (∀ n, n ∈ ns → inBounds size n.1 n.2 = true) →
  let s' := fold_left (regionVisit board) ns s in
  seenShape size (rseen s') ∧ rcount s' = rcount s ∧
  (∀ y, isSeen (rseen s') y = true ↔
        isSeen (rseen s) y = true ∨ (y ∈ ns ∧ cellOf board y = Some EMPTY)) ∧
  (∀ y, y ∈ rq s' ↔
        y ∈ rq s ∨ (y ∈ ns ∧ cellOf board y = Some EMPTY ∧
                    isSeen (rseen s) y = false)) ∧
  (∀ v, v ∈ rborder s' ↔
        v ∈ rborder s ∨ (v ≠ Some EMPTY ∧ ∃ n, n ∈ ns ∧ cellOf board n = v)) ∧
  (NoDup (rborder s) → NoDup (rborder s')) ∧
  (NoDup (rq s) → (∀ y, y ∈ rq s → isSeen (rseen s) y = true) →
   NoDup (rq s')).
Proof.
  cbv zeta. revert s. induction ns as [|n ns IH]; intros s Hshape Hns.
  { simpl. split_and!; try done.
    - intros y. split; [by left|]. by intros [?|[?%elem_of_nil _]].
    - intros y. split; [by left|]. by intros [?|[?%elem_of_nil _]].
    - intros v. split; [by left|].
      by intros [?|(_ & ? & ?%elem_of_nil & _)]. }
  cbn [fold_left].
  assert (inBounds size n.1 n.2 = true) as Hn by (apply Hns; by left).
  assert (∀ x, x ∈ ns → inBounds size x.1 x.2 = true) as Hns'
    by (intros x Hx; apply Hns; by right).
  destruct (regionVisit_cases s n)
    as [(He & Hun & ->)|[(He & ->)|(He & Hsn & ->)]].
  - destruct (IH (mkRegion (n :: rq s) (setCell (rseen s) n.1 n.2 true)
                    (rcount s) (rborder s)))
      as (H1 & H2 & H3 & H4 & H5 & H6 & H7);
      [by apply seenShape_setCell|done|]. simpl in *.
    split_and!; try done.
    + intros y. rewrite H3, (isSeen_setCell size) by done.
      rewrite elem_of_cons. destruct (decide (n = y)) as [<-|Hne].
      * split; [intros _; right; by split; [left|]|by left].
      * split; [intros [?|[? ?]]; [by left|right; split; [by right|done]]|].
        intros [?|[[->|?] ?]]; [by left|done|by right].
    + intros y. rewrite H4, (isSeen_setCell size) by done.
      rewrite !elem_of_cons. destruct (decide (n = y)) as [<-|Hne].
      * split; [intros _; right; split_and!; [by left|done..]|by left; left].
      * split.
        -- intros [[->|?]|(? & ? & ?)]; [done|by left|].
           right. split_and!; [by right|done..].
        -- intros [?|([->|?] & ? & ?)]; [by left; right|done|by right].
    + intros v. rewrite H5. split.
      * intros [?|(? & x & ? & ?)]; [by left|].
        right. split; [done|]. exists x. split; [by right|done].
      * intros [?|(Hv & x & [->|?]%elem_of_cons & Hx)]; [by left|congruence|].
        right. split; [done|]. by exists x.
    + intros Hnd Hseen. apply H7.
      * apply NoDup_cons. split; [|done]. intros Hin.
        apply Hseen in Hin. congruence.
      * intros y. rewrite (isSeen_setCell size) by done.
        destruct (decide (n = y)); [done|].
        intros [->|?]%elem_of_cons; [done|auto].
  - destruct (IH (mkRegion (rq s) (rseen s) (rcount s)
                    (setAdd (rborder s) (cellOf board n))))
      as (H1 & H2 & H3 & H4 & H5 & H6 & H7); [done..|]. simpl in *.
    split_and!; try done.
    + intros y. rewrite H3, elem_of_cons. split.
      * intros [?|[? ?]]; [by left|right; split; [by right|done]].
      * intros [?|[[->|?] ?]]; [by left|done|by right].
    + intros y. rewrite H4, elem_of_cons. split.
      * intros [?|(? & ? & ?)]; [by left|]. right. split_and!; [by right|done..].
      * intros [?|([->|?] & ? & ?)]; [by left|done|by right].
    + intros v. rewrite H5, elem_of_setAdd. split.
      * intros [[?| ->]|(? & x & ? & ?)]; [by left| |].
        -- right. split; [done|]. exists n. split; [by left|done].
        -- right. split; [done|]. exists x. split; [by right|done].
      * intros [?|(Hv & x & [->|?]%elem_of_cons & Hx)];
          [by left; left|left; by right|].
        right. split; [done|]. by exists x.
    + intros Hnd. by apply H6, NoDup_setAdd.
  - destruct (IH s) as (H1 & H2 & H3 & H4 & H5 & H6 & H7); [done..|].
    split_and!; try done.
    + intros y. rewrite H3, elem_of_cons. split.
      * intros [?|[? ?]]; [by left|right; split; [by right|done]].
      * intros [?|[[->|?] ?]]; [by left|by left|by right].
    + intros y. rewrite H4, elem_of_cons. split.
      * intros [?|(? & ? & ?)]; [by left|]. right. split_and!; [by right|done..].
      * intros [?|([->|?] & ? & ?)]; [by left|congruence|by right].
    + intros v. rewrite H5. split.
      * intros [?|(? & x & ? & ?)]; [by left|].
        right. split; [done|]. exists x. split; [by right|done].
      * intros [?|(Hv & x & [->|?]%elem_of_cons & Hx)]; [by left|congruence|].
        right. split; [done|]. by exists x.
Qed.
End RegionVisit.

Section RegionLoop.
Variables (board : Board) (seen0 : Grid bool) (p : Pos).
Let size := sizeOf board.
Hypothesis start_inBounds : inBounds size p.1 p.2 = true.
Hypothesis start_empty : cellOf board p = Some EMPTY.
Hypothesis start_fresh : isSeen seen0 p = false.
Hypothesis seen0_shape : seenShape size seen0.
(* the cells marked before are whole regions *)
Hypothesis seen0_closed : ∀ x n,
  isSeen seen0 x = true → n ∈ neighbors size x.1 x.2 →
  cellOf board n = Some EMPTY → isSeen seen0 n = true.

(** Invariant of the region loop; [pr] are the cells popped so far. *)
Record regionInv (pr : list Pos) (s : Region) : Prop := {
  ri_shape : seenShape size (rseen s);
  ri_marks : ∀ x, isSeen (rseen s) x = true ↔
                  isSeen seen0 x = true ∨ x ∈ pr ∨ x ∈ rq s;
  ri_nodup : NoDup (pr ++ rq s);
  ri_fresh : ∀ x, x ∈ pr ++ rq s → isSeen seen0 x = false;
  ri_reach : ∀ x, x ∈ pr ++ rq s →
                  connected board (Some EMPTY) p x ∧
                  inBounds size x.1 x.2 = true;
  ri_start : p ∈ pr ++ rq s;
  ri_count : rcount s = Z.of_nat (length pr);
  ri_closed : ∀ x n, x ∈ pr → n ∈ neighbors size x.1 x.2 →
      (cellOf board n = Some EMPTY → isSeen (rseen s) n = true) ∧
      (cellOf board n ≠ Some EMPTY → cellOf board n ∈ rborder s);
  ri_border : ∀ v, v ∈ rborder s →
      v ≠ Some EMPTY ∧
      ∃ x n, x ∈ pr ∧ n ∈ neighbors size x.1 x.2 ∧ cellOf board n = v;
  ri_nodupb : NoDup (rborder s)
}.

Lemma regionInv_init :
  regionInv [] (mkRegion [p] (setCell seen0 p.1 p.2 true) 0 []).
Proof.
  split; simpl.
  - by apply seenShape_setCell.
  - intros x. rewrite (isSeen_setCell size) by done.
    rewrite list_elem_of_singleton.
    destruct (decide (p = x)) as [->|]; [by split; [right; right|]|].
    split; [by left|]. by intros [?|[?%elem_of_nil|?]].
  - apply NoDup_singleton.
  - by intros x ->%list_elem_of_singleton.
  - intros x ->%list_elem_of_singleton. split; [apply rtc_refl|done].
  - by left.
  - done.
  - by intros x n ?%elem_of_nil.
  - by intros v ?%elem_of_nil.
  - apply NoDup_nil_2.
Qed.

Lemma regionStep_inv (pr : list Pos) (s : Region) (x : Pos) (rest : list Pos) :
  regionInv pr s → rq s = x :: rest →
  regionInv (pr ++ [x]) (regionStep board s).
Proof.
  intros [Hshape Hmarks Hnd Hfresh Hreach Hstart Hcount Hclosed Hborder Hndb] Hq.
  unfold regionStep. rewrite Hq. rewrite Hq in *.
  assert (NoDup pr ∧ NoDup (x :: rest) ∧ ∀ y, y ∈ pr → y ∉ x :: rest) as
    (Hndp & Hndq & Hdisj).
  { apply NoDup_app in Hnd as (? & ? & ?). done. }
  apply NoDup_cons in Hndq as [Hx Hndr].
  destruct (Hreach x) as [Hcx Hbx]; [apply elem_of_app; right; by left|].
  destruct (regionVisit_fold board (neighbors size x.1 x.2)
              (mkRegion rest (rseen s) (rcount s + 1) (rborder s)))
    as (H1 & H2 & H3 & H4 & H5 & H6 & H7).
  { done. }
  { intros n. apply neighbors_inBounds. }
  fold size. set (s' := fold_left _ _ _) in *. simpl in *.
  assert (NoDup (rq s')) as Hndq'.
  { apply H7; [done|]. intros y Hy. apply Hmarks. right; right. by right. }
  split.
  - done.
  - intros y. rewrite H3, H4, Hmarks, elem_of_app, list_elem_of_singleton,
      elem_of_cons. split.
    + intros [[?|[?|[->|?]]]|[Hy He]]; eauto 6.
      destruct (isSeen (rseen s) y) eqn:Hsy.
      * apply Hmarks in Hsy as [?|[?|[->|?]%elem_of_cons]]; eauto 6.
      * right; right; right. done.
    + intros [? | [[? | ->] | [? | (? & ? & ?)]]]; eauto 6.
  - apply NoDup_app. split_and!; [|intros y Hy Hy'|done].
    + apply NoDup_app. split_and!; [done| |apply NoDup_singleton].
      intros y Hy ->%list_elem_of_singleton. apply (Hdisj x Hy). by left.
    + apply H4 in Hy' as [Hy'|(_ & _ & Hun)].
      * apply elem_of_app in Hy as [Hy| ->%list_elem_of_singleton]; [|done].
        apply (Hdisj y Hy). by right.
      * assert (isSeen (rseen s) y = true) as Hs; [|congruence].
        apply Hmarks. right.
        apply elem_of_app in Hy as [Hy| ->%list_elem_of_singleton];
          [by left|right; by left].
  - intros y [[Hy| ->%list_elem_of_singleton]%elem_of_app|Hy]%elem_of_app.
    + apply Hfresh, elem_of_app. by left.
    + apply Hfresh, elem_of_app. right. by left.
    + apply H4 in Hy as [Hy|(_ & _ & Hun)].
      * apply Hfresh, elem_of_app. right. by right.
      * destruct (isSeen seen0 y) eqn:Hs0; [|done].
        assert (isSeen (rseen s) y = true) as Hs; [|congruence].
        apply Hmarks. by left.
  - intros y [[Hy| ->%list_elem_of_singleton]%elem_of_app|Hy]%elem_of_app.
    + apply Hreach, elem_of_app. by left.
    + done.
    + apply H4 in Hy as [Hy|(Hn & He & _)].
      * apply Hreach, elem_of_app. right. by right.
      * split; [|by eapply neighbors_inBounds].
        eapply rtc_r; [exact Hcx|]. by split.
  - apply elem_of_app in Hstart as [?|[->|?]%elem_of_cons].
    + apply elem_of_app. left. apply elem_of_app. by left.
    + apply elem_of_app. left. apply elem_of_app. right. by left.
    + apply elem_of_app. right. apply H4. by left.
  - rewrite H2, Hcount, length_app. simpl. lia.
  - intros a n [Ha| ->%list_elem_of_singleton]%elem_of_app Hn.
    + destruct (Hclosed a n Ha Hn) as [Hc1 Hc2]. split.
      * intros He. apply H3. left. auto.
      * intros He. apply H5. left. auto.
    + split.
      * intros He. apply H3. right. done.
      * intros He. apply H5. right. split; [done|]. by exists n.
  - intros v [Hv|(Hv & n & Hn & Hc)]%H5.
    + destruct (Hborder v Hv) as (? & a & n & ? & ? & ?).
      split; [done|]. exists a, n. split; [|done]. apply elem_of_app. by left.
    + split; [done|]. exists x, n. split; [|done].
      apply elem_of_app. right. by left.
  - by apply H6.
Qed.

Lemma regionInv_bound (pr : list Pos) (s : Region) :
  regionInv pr s →
  (length pr + length (rq s) ≤ length board * length board)%nat.
Proof.
  intros Hinv. rewrite <- length_app.
  assert (pr ++ rq s ⊆+ allCells size) as Hsub.
  { apply NoDup_submseteq; [apply Hinv|]. intros x Hx.
    apply elem_of_allCells. by apply (ri_reach _ _ Hinv). }
  apply submseteq_length in Hsub. rewrite length_allCells in Hsub.
  unfold size, sizeOf in Hsub. rewrite Nat2Z.id in Hsub. lia.
Qed.

Lemma regionLoop_terminates (fuel : nat) (pr : list Pos) (s : Region) :
  regionInv pr s →
  (length board * length board < length pr + fuel)%nat →
  ∃ pr' s', regionLoop fuel board s = Some s' ∧
            regionInv pr' s' ∧ rq s' = [].
Proof.
  revert pr s. induction fuel as [|fuel IH]; intros pr s Hinv Hfuel.
  - pose proof (regionInv_bound _ _ Hinv) as Hb.
    destruct (rq s) as [|x rest] eqn:Hq; [|simpl in Hb; lia].
    exists pr, s. simpl. rewrite Hq. done.
  - simpl. destruct (rq s) as [|x rest] eqn:Hq.
    + exists pr, s. done.
    + apply (IH (pr ++ [x])); [by eapply regionStep_inv|].
      rewrite length_app. simpl. lia.
Qed.

(** When the loop ends, the cells it popped are the region of the start,
    [count] is their number, and [border] holds the values met around it. *)
Lemma regionInv_final (pr : list Pos) (s : Region) :
  regionInv pr s → rq s = [] →
  NoDup pr ∧ rcount s = Z.of_nat (length pr) ∧
  (∀ y, y ∈ pr ↔ connected board (Some EMPTY) p y) ∧
  (∀ y, isSeen (rseen s) y = true ↔ isSeen seen0 y = true ∨ y ∈ pr) ∧
  (∀ v, v ∈ rborder s ↔ bordered board p v) ∧
  NoDup (rborder s) ∧ seenShape size (rseen s) ∧
  (∀ y, y ∈ pr → isSeen seen0 y = false).
Proof.
  intros Hinv Hq. pose proof Hinv as
    [Hshape Hmarks Hnd Hfresh Hreach Hstart Hcount Hclosed Hborder Hndb].
  rewrite Hq, app_nil_r in *.
  assert (∀ y, connected board (Some EMPTY) p y → y ∈ pr) as Hall.
  { apply rtc_ind_r; [done|]. intros a z _ [Hz He] Ha.
    destruct (Hclosed a z Ha Hz) as [Hc _].
    apply Hc, Hmarks in He as Hs. destruct Hs as [Hs|[?|?%elem_of_nil]]; try done.
    exfalso. assert (isSeen seen0 a = true) as Hsa.
    { apply (seen0_closed z a Hs).
      - apply neighbors_sym; [by apply Hreach|done].
      - apply (connected_cell board (Some EMPTY) p); [done|by apply Hreach]. }
    rewrite (Hfresh a Ha) in Hsa. done. }
  split_and!; try done.
  - intros y. split; [apply Hreach|apply Hall].
  - intros y. rewrite Hmarks. split; [|tauto].
    intros [?|[?|?%elem_of_nil]]; tauto.
  - intros v. split.
    + intros Hv. destruct (Hborder v Hv) as (Hne & x & n & Hx & Hn & Hc).
      split; [done|]. exists x, n. split_and!; [by apply Hreach|done..].
    + intros (Hne & x & n & Hx & Hn & Hc). subst v.
      by apply (Hclosed x n); [apply Hall|..].
Qed.

Lemma regionLoop_spec :
  ∃ pr s', regionLoop (regionFuel board) board
             (mkRegion [p] (setCell seen0 p.1 p.2 true) 0 []) = Some s' ∧
    rq s' = [] ∧
    NoDup pr ∧ rcount s' = Z.of_nat (length pr) ∧
    (∀ y, y ∈ pr ↔ connected board (Some EMPTY) p y) ∧
    (∀ y, isSeen (rseen s') y = true ↔ isSeen seen0 y = true ∨ y ∈ pr) ∧
    (∀ v, v ∈ rborder s' ↔ bordered board p v) ∧
    NoDup (rborder s') ∧ seenShape size (rseen s') ∧
    (∀ y, y ∈ pr → isSeen seen0 y = false).
Proof.
  destruct (regionLoop_terminates (regionFuel board) [] _ regionInv_init)
    as (pr & s' & Hrun & Hinv & Hq).
  { unfold regionFuel. simpl. lia. }
  exists pr, s'. split; [done|]. split; [done|]. by apply regionInv_final.
Qed.
End RegionLoop.

(** ** The loops over the cells *)

Lemma fold_left_bind {A B C} (f : C → B → C) (g : A → list B) (l : list A)
    (acc : C) :
  fold_left f (l ≫= g) acc = fold_left (λ acc x, fold_left f (g x) acc) l acc.
Proof.
  revert acc. induction l as [|x l IH]; intros acc; [done|].
  rewrite bind_cons, fold_left_app. cbn [fold_left]. apply IH.
Qed.

Lemma forCells_allCells {S} (size : Z) (body : S → Z → Z → S) (s : S) :
  forCells size body s
  = fold_left (λ s x, body s x.1 x.2) (allCells size) s.
Proof.
  unfold forCells, allCells. rewrite fold_left_bind.
  apply fold_left_pointwise. intros acc r.
  by rewrite fold_left_bind.
Qed.

Lemma NoDup_allCells (size : Z) : NoDup (allCells size).
Proof.
  unfold allCells. apply NoDup_bind; [| |apply NoDup_seqZ].
  - intros r1 r2 [r c] _ _
      (c1 & [= -> ->]%list_elem_of_singleton & _)%list_elem_of_bind
      (c2 & [= -> _]%list_elem_of_singleton & _)%list_elem_of_bind. done.
  - intros r _. apply NoDup_bind; [| |apply NoDup_seqZ].
    + intros c1 c2 [r' c] _ _ [= _ ->]%list_elem_of_singleton
        [= _ ->]%list_elem_of_singleton. done.
    + intros c _. apply NoDup_singleton.
Qed.

(** The cells of a list that hold [v]. *)
Definition cellsWith (board : Board) (v : Z) (cells : list Pos) : list Pos :=
  List.filter (λ x, bool_decide (cellOf board x = Some v)) cells.

Lemma elem_of_cellsWith (board : Board) (v : Z) (cells : list Pos) (x : Pos) :
  x ∈ cellsWith board v cells ↔ x ∈ cells ∧ cellOf board x = Some v.
Proof.
  unfold cellsWith.
  by rewrite list_elem_of_In, filter_In, <- list_elem_of_In, bool_decide_eq_true.
Qed.

Lemma countStone_fold (board : Board) (cells : list Pos) (s : Score) :
  fold_left (λ s x, countStone board s x.1 x.2) cells s
  = mkScore (black s + Z.of_nat (length (cellsWith board BLACK cells)))
            (white s + Z.of_nat (length (cellsWith board WHITE cells))).
Proof.
  revert s. induction cells as [|x cells IH]; intros s.
  { simpl. destruct s. simpl. f_equal; lia. }
  cbn [fold_left]. rewrite IH. unfold countStone, cellsWith.
  cbn [List.filter]. fold (cellOf board x).
  destruct (decide (cellOf board x = Some BLACK)) as [Hb|Hb].
  - rewrite (bool_decide_eq_true_2 _ Hb).
    rewrite bool_decide_eq_false_2 by (rewrite Hb; done).
    simpl. f_equal; lia.
  - rewrite (bool_decide_eq_false_2 _ Hb).
    destruct (decide (cellOf board x = Some WHITE)) as [Hw|Hw].
    + rewrite (bool_decide_eq_true_2 _ Hw). simpl. f_equal; lia.
    + rewrite (bool_decide_eq_false_2 _ Hw). done.
Qed.

(** ** The owner of a region *)

Lemma regionOwner_spec (border : list (option Z)) :
  NoDup border →
  (∀ v, v ∈ border → v = Some BLACK ∨ v = Some WHITE) →
  (regionOwner border = BLACK ↔ Some BLACK ∈ border ∧ Some WHITE ∉ border) ∧
  (regionOwner border = WHITE ↔ Some WHITE ∈ border ∧ Some BLACK ∉ border).
Proof.
  intros Hnd Hvals. unfold regionOwner.
  destruct border as [|v [|v' rest]]; simpl.
  - split; (split; [done|by intros [?%elem_of_nil _]]).
  - destruct (setHas [v] (Some BLACK)) eqn:Hh.
    + apply setHas_true, list_elem_of_singleton in Hh. subst v.
      split; split; try done.
      * intros _. split; [by left|]. by intros ?%list_elem_of_singleton.
      * intros [_ H]. exfalso. apply H. by left.
    + apply setHas_false in Hh.
      destruct (Hvals v) as [->| ->]; [by left|exfalso; apply Hh; by left|].
      split; split; try done.
      * by intros [?%list_elem_of_singleton _].
      * intros _. split; [by left|done].
  - assert (v ≠ v') as Hne.
    { apply NoDup_cons in Hnd as [Hv _]. intros ->. apply Hv. by left. }
    assert (Some BLACK ∈ v :: v' :: rest ∧ Some WHITE ∈ v :: v' :: rest)
      as [Hb Hw].
    { destruct (Hvals v) as [->| ->]; [by left| |];
        (destruct (Hvals v') as [->| ->]; [right; by left|..]);
        try done; split; (by left) || (right; by left). }
    split; (split; [done|]); by intros [_ H].
Qed.

Lemma bordered_same_region (board : Board) (x y : Pos) (v : option Z) :
  inBounds (sizeOf board) x.1 x.2 = true → cellOf board x = Some EMPTY →
  connected board (Some EMPTY) x y →
  bordered board y v ↔ bordered board x v.
Proof.
  intros Hb He Hxy. split; intros (Hv & q & n & Hq & Hn & Hc);
    (split; [done|]); exists q, n; (split_and!; [|done..]).
  - by eapply rtc_trans.
  - eapply rtc_trans; [|exact Hq]. by apply connected_sym.
Qed.

(** Every cell of the [size] by [size] board holds EMPTY, BLACK or WHITE. *)
Definition wfBoard (board : Board) : Prop :=
  ∀ x, inBounds (sizeOf board) x.1 x.2 = true →
       cellOf board x = Some EMPTY ∨ cellOf board x = Some BLACK ∨
       cellOf board x = Some WHITE.

(** An empty cell counts for [color] when its region is bordered by
    stones of [color] and by no stone of the other colour; a stone counts
    for its own colour. *)
Definition countsFor (board : Board) (x : Pos) (color : Z) : Prop :=
  cellOf board x = Some color ∨
  (cellOf board x = Some EMPTY ∧ bordered board x (Some color) ∧
   ¬ bordered board x (Some (OTHER color))).

Section ScorePass.
Variables (board : Board) (b0 w0 : Z).
Let size := sizeOf board.
Hypothesis board_wf : wfBoard board.

(** Invariant of the second pass: [done] are the cells gone through,
    [bl] and [wl] the empty cells counted for Black and for White. *)
Record scoreInv (done bl wl : list Pos) (s : Scoring) : Prop := {
  si_q : sc_q s = [];
  si_shape : seenShape size (sc_seen s);
  si_seen : ∀ x, isSeen (sc_seen s) x = true →
                 inBounds size x.1 x.2 = true ∧ cellOf board x = Some EMPTY;
  si_closed : ∀ x n, isSeen (sc_seen s) x = true →
                 n ∈ neighbors size x.1 x.2 → cellOf board n = Some EMPTY →
                 isSeen (sc_seen s) n = true;
  si_done : ∀ x, x ∈ done → cellOf board x = Some EMPTY →
                 isSeen (sc_seen s) x = true;
  si_bl : ∀ x, x ∈ bl ↔ isSeen (sc_seen s) x = true ∧
                 bordered board x (Some BLACK) ∧
                 ¬ bordered board x (Some WHITE);
  si_wl : ∀ x, x ∈ wl ↔ isSeen (sc_seen s) x = true ∧
                 bordered board x (Some WHITE) ∧
                 ¬ bordered board x (Some BLACK);
  si_ndb : NoDup bl;
  si_ndw : NoDup wl;
  si_black : sc_black s = b0 + Z.of_nat (length bl);
  si_white : sc_white s = w0 + Z.of_nat (length wl)
}.

Lemma scoreInv_init :
  scoreInv [] [] [] (mkScoring b0 w0 (makeGrid size false) []).
Proof.
  split; simpl; try lia; try apply NoDup_nil_2.
  - done.
  - apply seenShape_makeGrid.
  - intros x. by rewrite isSeen_makeGrid.
  - intros x n. by rewrite isSeen_makeGrid.
  - by intros x ?%elem_of_nil.
  - intros x. rewrite isSeen_makeGrid. split; [by intros ?%elem_of_nil|].
    by intros [? _].
  - intros x. rewrite isSeen_makeGrid. split; [by intros ?%elem_of_nil|].
    by intros [? _].
Qed.

Lemma bordered_values (x : Pos) (v : option Z) :
  bordered board x v → v = Some BLACK ∨ v = Some WHITE.
Proof.
  intros (Hne & q & n & _ & Hn & Hc).
  destruct (board_wf n) as [H|[H|H]]; [by eapply neighbors_inBounds|..];
    rewrite Hc in H; auto. done.
Qed.

Lemma scoreCell_inv (done bl wl : list Pos) (s : Scoring) (x : Pos) :
  inBounds size x.1 x.2 = true →
  scoreInv done bl wl s →
  ∃ bl' wl', scoreInv (done ++ [x]) bl' wl' (scoreCell board s x.1 x.2).
Proof.
  intros Hx Hinv. pose proof Hinv as
    [Hq Hshape Hseen Hclosed Hdone Hbl Hwl Hndb Hndw Hblack Hwhite].
  unfold scoreCell. replace (x.1, x.2) with x by (by destruct x).
  fold (cellOf board x).
  destruct (bool_decide (cellOf board x ≠ Some EMPTY) || isSeen (sc_seen s) x)
    eqn:Hskip.
  { exists bl, wl. split; try assumption.
    intros y [Hy| ->%list_elem_of_singleton]%elem_of_app He; [auto|].
    apply orb_true_iff in Hskip as [Hs|Hs]; [|done].
    by apply bool_decide_eq_true in Hs. }
  apply orb_false_iff in Hskip as [He%bool_decide_eq_false Hun].
  assert (cellOf board x = Some EMPTY) as Hempty.
  { destruct (decide (cellOf board x = Some EMPTY)); [done|]. by destruct He. }
  clear He. rewrite Hq.
  destruct (regionLoop_spec board (sc_seen s) x Hx Hempty Hun Hshape Hclosed)
    as (pr & reg & -> & Hrq & Hndp & Hcount & Hpr & Hmarks & Hborder & Hndbo
        & Hshape' & Hfresh).
  assert (∀ y, y ∈ pr → inBounds size y.1 y.2 = true ∧
                        cellOf board y = Some EMPTY) as Hprc.
  { intros y Hy. apply Hpr in Hy. split.
    - apply connected_inBounds in Hy as [->|?]; done.
    - by apply (connected_cell board (Some EMPTY) x). }
  assert (∀ y v, y ∈ pr → bordered board y v ↔ v ∈ rborder reg) as Hbv.
  { intros y v Hy. rewrite Hborder. apply bordered_same_region; try done.
    by apply Hpr. }
  destruct (regionOwner_spec (rborder reg) Hndbo) as [HoB HoW].
  { intros v Hv. apply Hborder in Hv. by eapply bordered_values. }
  assert (x ∈ pr) as Hxpr by (apply Hpr, rtc_refl).
  assert (∀ y, isSeen (rseen reg) y = true →
               inBounds size y.1 y.2 = true ∧ cellOf board y = Some EMPTY)
    as Hseen'.
  { intros y [?|?]%Hmarks; auto. }
  assert (∀ y n, isSeen (rseen reg) y = true →
                 n ∈ neighbors size y.1 y.2 → cellOf board n = Some EMPTY →
                 isSeen (rseen reg) n = true) as Hclosed'.
  { intros y n [Hy|Hy]%Hmarks Hn Hn0; apply Hmarks.
    - left. by eapply Hclosed.
    - right. apply Hpr. eapply rtc_r; [by apply Hpr|]. by split. }
  assert (∀ y, y ∈ done ++ [x] → cellOf board y = Some EMPTY →
               isSeen (rseen reg) y = true) as Hdone'.
  { intros y [Hy| ->%list_elem_of_singleton]%elem_of_app Hy0; apply Hmarks.
    - left. auto.
    - by right. }
  assert (∀ l, (∀ y, y ∈ l → isSeen (sc_seen s) y = true) → NoDup l →
               NoDup (l ++ pr)) as Hndapp.
  { intros l Hl Hndl. apply NoDup_app. split_and!; [done| |done].
    intros y Hy Hy'. apply Hl in Hy. by rewrite (Hfresh y Hy') in Hy. }
  destruct (Z.eqb_spec (regionOwner (rborder reg)) BLACK) as [Hob|Hob].
  - apply HoB in Hob as [HB HW].
    exists (bl ++ pr), wl. split; simpl; try done.
    + intros y. rewrite elem_of_app, Hbl, Hmarks. split.
      * intros [(? & ? & ?)|Hy]; [tauto|].
        rewrite !(Hbv y) by done. tauto.
      * intros ([?|Hy] & H1 & H2); [left; tauto|by right].
    + intros y. rewrite Hwl, Hmarks. split; [tauto|].
      intros ([?|Hy] & H1 & H2); [tauto|].
      rewrite !(Hbv y) in * by done. done.
    + apply Hndapp; [|done]. intros y Hy. by apply Hbl in Hy as [? _].
    + rewrite Hblack, Hcount, length_app. lia.
  - destruct (Z.eqb_spec (regionOwner (rborder reg)) WHITE) as [How|How].
    + apply HoW in How as [HW HB].
      exists bl, (wl ++ pr). split; simpl; try done.
      * intros y. rewrite Hbl, Hmarks. split; [tauto|].
        intros ([?|Hy] & H1 & H2); [tauto|].
        rewrite !(Hbv y) in * by done. done.
      * intros y. rewrite elem_of_app, Hwl, Hmarks. split.
        -- intros [(? & ? & ?)|Hy]; [tauto|].
           rewrite !(Hbv y) by done. tauto.
        -- intros ([?|Hy] & H1 & H2); [left; tauto|by right].
      * apply Hndapp; [|done]. intros y Hy. by apply Hwl in Hy as [? _].
      * rewrite Hwhite, Hcount, length_app. lia.
    + exists bl, wl. split; simpl; try done.
      * intros y. rewrite Hbl, Hmarks. split; [tauto|].
        intros ([?|Hy] & H1 & H2); [tauto|].
        rewrite !(Hbv y) in * by done. exfalso. apply Hob, HoB. done.
      * intros y. rewrite Hwl, Hmarks. split; [tauto|].
        intros ([?|Hy] & H1 & H2); [tauto|].
        rewrite !(Hbv y) in * by done. exfalso. apply How, HoW. done.
Qed.

Lemma scoreCell_fold (cells done bl wl : list Pos) (s : Scoring) :
  (∀ x, x ∈ cells → inBounds size x.1 x.2 = true) →
  scoreInv done bl wl s →
  ∃ bl' wl', scoreInv (done ++ cells) bl' wl'
               (fold_left (λ s x, scoreCell board s x.1 x.2) cells s).
Proof.
  revert done bl wl s.
  induction cells as [|x cells IH]; intros done bl wl s Hcells Hinv.
  { exists bl, wl. by rewrite app_nil_r. }
  cbn [fold_left].
  destruct (scoreCell_inv done bl wl s x) as (bl1 & wl1 & Hinv1);
    [apply Hcells; by left|done|].
  destruct (IH (done ++ [x]) bl1 wl1 _ ltac:(intros y Hy; apply Hcells; by right)
              Hinv1) as (bl' & wl' & Hinv').
  exists bl', wl'. by rewrite <- app_assoc in Hinv'.
Qed.
End ScorePass.

(** Deciding [wfBoard] by going through the cells. *)
Definition wfBoardb (board : Board) : bool :=
  forallb (λ x, bool_decide (cellOf board x = Some EMPTY)
                || bool_decide (cellOf board x = Some BLACK)
                || bool_decide (cellOf board x = Some WHITE))
    (allCells (sizeOf board)).

Lemma wfBoardb_spec (board : Board) : wfBoardb board = true → wfBoard board.
Proof.
  unfold wfBoardb, wfBoard. rewrite forallb_forall. intros H x Hx.
  specialize (H x). rewrite <- list_elem_of_In, elem_of_allCells in H.
  specialize (H Hx).
  apply orb_true_iff in H as [H|H]; [apply orb_true_iff in H as [H|H]|];
    apply bool_decide_eq_true in H; auto.
Qed.

(** C5: on a board of EMPTY, BLACK and WHITE cells, the black score is the
    number of cells that count for Black and the white score the number of
    cells that count for White, where a stone counts for its colour and an
    empty cell for the one colour that borders its region, if there is
    exactly one; no cell counts for both, the others count for neither. *)
Theorem chineseScore_area (board : Board) :
  wfBoard board →
  ∃ blackArea whiteArea : list Pos,
    NoDup blackArea ∧ NoDup whiteArea ∧
    (∀ x, x ∈ blackArea ↔
          inBounds (sizeOf board) x.1 x.2 = true ∧ countsFor board x BLACK) ∧
    (∀ x, x ∈ whiteArea ↔
          inBounds (sizeOf board) x.1 x.2 = true ∧ countsFor board x WHITE) ∧
    (∀ x, ¬ (x ∈ blackArea ∧ x ∈ whiteArea)) ∧
    black (chineseScore board) = Z.of_nat (length blackArea) ∧
    white (chineseScore board) = Z.of_nat (length whiteArea).
Proof.
  intros Hwf. unfold chineseScore. rewrite !forCells_allCells.
  rewrite countStone_fold. cbn [black white].
  set (size := sizeOf board).
  set (sB := cellsWith board BLACK (allCells size)).
  set (sW := cellsWith board WHITE (allCells size)).
  destruct (scoreCell_fold board (0 + Z.of_nat (length sB))
              (0 + Z.of_nat (length sW)) Hwf (allCells size) [] [] []
              (mkScoring (0 + Z.of_nat (length sB)) (0 + Z.of_nat (length sW))
                 (makeGrid size false) []))
    as (bl & wl & Hinv).
  { intros x. apply elem_of_allCells. }
  { apply scoreInv_init. }
  rewrite app_nil_l in Hinv. fold size in Hinv.
  set (s2 := fold_left _ _ _) in *.
  destruct Hinv as [_ _ Hseen _ Hdone Hbl Hwl Hndb Hndw Hblack Hwhite].
  assert (∀ v l, NoDup l → (∀ x, x ∈ l → cellOf board x = Some EMPTY) →
                 v ≠ EMPTY →
                 NoDup (cellsWith board v (allCells size) ++ l)) as Hnd.
  { intros v l Hl Hle Hv. apply NoDup_app. split_and!; [| |done].
    - apply NoDup_ListNoDup, List.NoDup_filter, NoDup_ListNoDup, NoDup_allCells.
    - intros x [_ Hx]%elem_of_cellsWith Hx'%Hle. congruence. }
  assert (∀ x, x ∈ bl → cellOf board x = Some EMPTY) as Hble.
  { intros x Hx. apply Hbl in Hx as [Hx _]. by apply Hseen. }
  assert (∀ x, x ∈ wl → cellOf board x = Some EMPTY) as Hwle.
  { intros x Hx. apply Hwl in Hx as [Hx _]. by apply Hseen. }
  exists (sB ++ bl), (sW ++ wl). split_and!.
  - by apply Hnd.
  - by apply Hnd.
  - intros x. unfold sB. rewrite elem_of_app, elem_of_cellsWith,
      elem_of_allCells, Hbl. unfold countsFor. split.
    + intros [[? ?]|(Hs & ? & ?)]; [tauto|].
      destruct (Hseen x Hs). tauto.
    + intros [Hx [?|(He & ? & ?)]]; [tauto|]. right. split; [|done].
      apply Hdone; [|done]. by apply elem_of_allCells.
  - intros x. unfold sW. rewrite elem_of_app, elem_of_cellsWith,
      elem_of_allCells, Hwl. unfold countsFor. split.
    + intros [[? ?]|(Hs & ? & ?)]; [tauto|].
      destruct (Hseen x Hs). tauto.
    + intros [Hx [?|(He & ? & ?)]]; [tauto|]. right. split; [|done].
      apply Hdone; [|done]. by apply elem_of_allCells.
  - intros x [[[_ Hb]%elem_of_cellsWith|Hb]%elem_of_app
                [[_ Hw]%elem_of_cellsWith|Hw]%elem_of_app].
    + by rewrite Hb in Hw.
    + apply Hwle in Hw. by rewrite Hb in Hw.
    + apply Hble in Hb. by rewrite Hb in Hw.
    + apply Hbl in Hb as (_ & Hb & _). apply Hwl in Hw as (_ & _ & Hw). done.
  - rewrite Hblack, length_app. lia.
  - rewrite Hwhite, length_app. lia.
Qed.

Lemma chineseScore_area_witness :
  ∃ blackArea : list Pos,
    NoDup blackArea ∧
    black (chineseScore [[0; 1; 0]; [1; 1; 0]; [0; 0; 2]])
    = Z.of_nat (length blackArea).
Proof.
  destruct (chineseScore_area [[0; 1; 0]; [1; 1; 0]; [0; 0; 2]])
    as (blackArea & whiteArea & Hnd & _ & _ & _ & _ & Hb & _).
  - apply wfBoardb_spec. vm_compute. reflexivity.
  - exists blackArea. by split.
Defined.

(** * Further properties of the engine *)

(** X1: started on a stone, the loop of [floodGroup] ends within its bound
    of turns, and the function returns the colour of the stone, the stones
    of its group (the start among them, each once, all of that colour) and
    the liberties of the group (each once). *)
Theorem floodGroup_group_and_liberties (board : Board) (r c : Z) :
  cellOf board (r, c) ≠ Some EMPTY →
  is_Some (floodLoop (floodFuel board) board (cellOf board (r, c))
             (mkFlood [(r, c)] [] [])) ∧
  gcolor (floodGroup board r c) = cellOf board (r, c) ∧
  (r, c) ∈ stones (floodGroup board r c) ∧
  (∀ q, q ∈ stones (floodGroup board r c) ↔
        connected board (cellOf board (r, c)) (r, c) q) ∧
  (∀ q, q ∈ stones (floodGroup board r c) →
        cellOf board q = cellOf board (r, c)) ∧
  (∀ l, l ∈ liberties (floodGroup board r c) ↔ isLiberty board (r, c) l) ∧
  NoDup (stones (floodGroup board r c)) ∧
  NoDup (liberties (floodGroup board r c)).
Proof.
  intros Hstone.
  destruct (floodGroup_run board (r, c) Hstone) as (s & Hrun & _ & _ & Hg).
  destruct (floodGroup_spec board (r, c) Hstone) as (Hst & Hlib & Hnd & Hndl).
  cbn [fst snd] in Hg, Hst, Hlib, Hnd, Hndl.
  split_and!.
  - rewrite Hrun. by eexists.
  - by rewrite Hg.
  - apply Hst, rtc_refl.
  - exact Hst.
  - intros q Hq. apply Hst in Hq. by apply connected_cell in Hq.
  - exact Hlib.
  - exact Hnd.
  - exact Hndl.
Qed.

Lemma floodGroup_group_and_liberties_witness :
  stones (floodGroup koBefore 1 1) = [(1, 1)] ∧
  ∀ l, l ∈ liberties (floodGroup koBefore 1 1) ↔ isLiberty koBefore (1, 1) l.
Proof.
  destruct (floodGroup_group_and_liberties koBefore 1 1)
    as (_ & _ & _ & _ & _ & Hlib & _ & _).
  - vm_compute. discriminate.
  - split; [vm_compute; reflexivity|exact Hlib].
Defined.

(** ** What a placement changes, and what it counts *)

Lemma captureStep_removed (opp : Z) (newB : Board) (captured : Z)
    (seen : list Pos) (n : Pos) :
  opp ≠ EMPTY → n ∉ seen →
  ∃ newB' captured' seen' G,
    captureStep opp (newB, captured, seen) n = (newB', captured', seen') ∧
    NoDup G ∧ captured' = captured + Z.of_nat (length G) ∧
    (∀ q, q ∈ G → cellOf newB q = Some opp) ∧
    (∀ q, cellOf newB' q = if decide (q ∈ G) then Some EMPTY else cellOf newB q).
Proof.
  intros Hopp Hseen. unfold captureStep.
  apply setHas_false in Hseen as Hs.
  destruct (decide (cellOf newB n = Some opp)) as [Hn|Hn].
  2: { exists newB, captured, seen, []. split_and!; try done.
       - apply NoDup_nil_2.
       - simpl. lia.
       - by intros q ?%elem_of_nil. }
  rewrite Hs.
  assert (cellOf newB n ≠ Some EMPTY) as Hne by (rewrite Hn; congruence).
  destruct (floodGroup_spec newB n Hne) as (Hst & _ & Hnd & _).
  destruct (decide (length (liberties (floodGroup newB n.1 n.2)) = 0%nat)).
  - destruct (fold_removeStones (stones (floodGroup newB n.1 n.2)) newB captured)
      as (H1 & H2 & H3).
    destruct (fold_left removeStones _ _) as [newB' captured'] eqn:Hfold.
    simpl in H1, H2, H3.
    assert (∀ q, q ∈ stones (floodGroup newB n.1 n.2) →
                 cellOf newB q = Some opp) as Hopps.
    { intros q Hq. apply Hst, connected_cell in Hq; [|done]. by rewrite Hq. }
    exists newB', captured', (setAdd seen n), (stones (floodGroup newB n.1 n.2)).
    split_and!; try done.
    intros q. rewrite H3. destruct (decide (q ∈ _)) as [Hq|]; [|done].
    by rewrite (Hopps q Hq).
  - exists newB, captured, (setAdd seen n), []. split_and!; try done.
    + apply NoDup_nil_2.
    + simpl. lia.
    + by intros q ?%elem_of_nil.
Qed.

(** The opponent stones removed so far, each once, are as many as
    [captured] says. *)
Definition countInv (b0 : Board) (opp : Z) (removed : list Pos)
    (newB : Board) (captured : Z) : Prop :=
  NoDup removed ∧ captured = Z.of_nat (length removed) ∧
  ∀ q, q ∈ removed ↔ cellOf b0 q = Some opp ∧ cellOf newB q = Some EMPTY.

Lemma capture_fold_count (b0 : Board) (opp : Z) (ns done removed : list Pos)
    (newB : Board) (captured : Z) (seen : list Pos) :
  opp ≠ EMPTY →
  NoDup ns → (∀ x, x ∈ ns → x ∉ done) →
  (∀ x, x ∈ done ++ ns → inBounds (sizeOf b0) x.1 x.2 = true) →
  phaseInv b0 opp done newB captured seen →
  countInv b0 opp removed newB captured →
  ∃ newB' captured' seen' removed',
    fold_left (captureStep opp) ns (newB, captured, seen)
      = (newB', captured', seen') ∧
    phaseInv b0 opp (done ++ ns) newB' captured' seen' ∧
    countInv b0 opp removed' newB' captured'.
Proof.
  intros Hopp. revert done removed newB captured seen.
  induction ns as [|n ns IH];
    intros done removed newB captured seen Hnd Hfresh Hbnd Hinv Hcnt.
  { rewrite app_nil_r. by eexists _, _, _, removed. }
  cbn [fold_left]. apply NoDup_cons in Hnd as [Hn Hnd].
  replace (done ++ n :: ns) with ((done ++ [n]) ++ ns) in *
    by (by rewrite <- app_assoc).
  destruct (captureStep_inv b0 opp Hopp done newB captured seen n)
    as (newB1 & captured1 & seen1 & Hstep & Hinv1);
    [apply Hfresh; by left|intros x Hx; apply Hbnd; set_solver|done|].
  destruct (captureStep_removed opp newB captured seen n Hopp)
    as (newB2 & captured2 & seen2 & G & Hstep2 & HndG & Hcap & HGopp & Hcells).
  { intros Hin. apply (Hfresh n); [by left|].
    by apply (ph_seen _ _ _ _ _ _ Hinv). }
  rewrite Hstep in Hstep2. injection Hstep2 as <- <- <-. rewrite Hstep.
  destruct Hcnt as (Hndr & Hlen & Hrem).
  apply (IH (done ++ [n]) (removed ++ G)); try done.
  - intros x Hx [Hd| ->%list_elem_of_singleton]%elem_of_app; [|done].
    apply (Hfresh x); [by right|done].
  - split_and!.
    + apply NoDup_app. split_and!; [done| |done].
      intros q Hq HqG. apply Hrem in Hq as [_ Hq].
      rewrite (HGopp q HqG) in Hq. congruence.
    + rewrite Hcap, Hlen, length_app. lia.
    + intros q. rewrite elem_of_app, Hrem, Hcells.
      destruct (decide (q ∈ G)) as [HqG|HqG]; [|tauto].
      split; [|tauto]. intros _. split; [|done].
      pose proof (HGopp q HqG) as Hq.
      destruct (ph_cells _ _ _ _ _ _ Hinv q) as [<-|[_ ?]]; [done|congruence].
Qed.

Lemma placeAndCapture_Placed_phase (board : Board) (r c color : Z)
    (b' : Board) (k : Z) :
  placeAndCapture board r c color = Placed b' k →
  cellAt board r c = Some EMPTY ∧ capturePhase board r c color = (b', k).
Proof.
  intros Hp.
  assert (cellAt board r c = Some EMPTY) as He.
  { revert Hp. unfold placeAndCapture, cellAt.
    destruct (at_ board r) as [row|]; [|done].
    by destruct (decide (at_ row c = Some EMPTY)). }
  split; [done|]. rewrite placeAndCapture_unfold in Hp by done.
  destruct (capturePhase board r c color) as [newB captured].
  destruct (decide (length (liberties (floodGroup newB r c)) = 0%nat));
    [done|]. by injection Hp as <- <-.
Qed.

(** X2: a successful [placeAndCapture] changes the board at the placed
    cell, which was empty and now holds the mover's colour, and at
    opponent stones, which become empty; nothing else changes and the board
    keeps its size.  [captured] is the number of cells that went from the
    opponent's colour to empty. *)
Theorem placeAndCapture_changes (board : Board) (r c color : Z)
    (b' : Board) (k : Z) :
  placeAndCapture board r c color = Placed b' k →
  sizeOf b' = sizeOf board ∧
  cellOf board (r, c) = Some EMPTY ∧ cellOf b' (r, c) = Some color ∧
  (∀ q, q ≠ (r, c) →
        cellOf b' q = cellOf board q ∨
        (cellOf board q = Some (OTHER color) ∧ cellOf b' q = Some EMPTY)) ∧
  ∃ removed, NoDup removed ∧ k = Z.of_nat (length removed) ∧
             ∀ q, q ∈ removed ↔
                  cellOf board q = Some (OTHER color) ∧
                  cellOf b' q = Some EMPTY.
Proof.
  intros Hp.
  destruct (placeAndCapture_Placed_phase _ _ _ _ _ _ Hp) as [He Hphase].
  assert (is_Some (cellOf board (r, c))) as Hsome.
  { unfold cellOf; simpl. rewrite He. by eexists. }
  destruct (capture_fold_count (setCell board r c color) (OTHER color)
              (neighbors (sizeOf board) r c) [] []
              (setCell board r c color) 0 [] (OTHER_stone color))
    as (newB & captured & seen & removed & Hfold & Hinv & Hcnt).
  { apply NoDup_neighbors. }
  { intros x _ Hx. by apply elem_of_nil in Hx. }
  { intros x Hx. rewrite sizeOf_setCell. by eapply neighbors_inBounds. }
  { apply phaseInv_init, OTHER_stone. }
  { split_and!; [apply NoDup_nil_2|done|].
    intros q. split; [by intros ?%elem_of_nil|]. intros [H1 H2].
    rewrite H1 in H2. injection H2 as H2. by apply OTHER_stone in H2. }
  unfold capturePhase in Hphase. rewrite cloneBoard_id, Hfold in Hphase.
  injection Hphase as <- <-.
  assert (∀ q, cellOf (setCell board r c color) q
               = if decide ((r, c) = q) then Some color else cellOf board q)
    as Hb0.
  { intros q. rewrite (cellOf_setCell board (r, c)).
    destruct (decide ((r, c) = q)) as [<-|]; [|done].
    by destruct Hsome as [v ->]. }
  assert (cellOf newB (r, c) = Some color) as HP.
  { destruct (ph_cells _ _ _ _ _ _ Hinv (r, c)) as [->|[Ho _]].
    - by rewrite Hb0, decide_True.
    - rewrite Hb0, decide_True in Ho by done.
      exfalso. apply (OTHER_neq color). congruence. }
  split_and!.
  - by rewrite (ph_size _ _ _ _ _ _ Hinv), sizeOf_setCell.
  - exact He.
  - exact HP.
  - intros q Hq. destruct (ph_cells _ _ _ _ _ _ Hinv q) as [Hs|[Hs ?]];
      rewrite Hb0, decide_False in Hs by done; [by left|by right].
  - destruct Hcnt as (Hnd & Hlen & Hrem).
    exists removed. split_and!; [done..|].
    intros q. rewrite Hrem, Hb0.
    destruct (decide ((r, c) = q)) as [<-|]; [|done].
    split; intros [H1 _]; exfalso.
    + apply (OTHER_neq color). congruence.
    + apply (OTHER_stone color). unfold cellOf in H1. simpl in H1. congruence.
Qed.

Lemma placeAndCapture_changes_witness :
  sizeOf koAfter = sizeOf koBefore ∧
  ∃ removed, NoDup removed ∧ 1 = Z.of_nat (length removed) ∧
             ∀ q, q ∈ removed ↔
                  cellOf koBefore q = Some (OTHER BLACK) ∧
                  cellOf koAfter q = Some EMPTY.
Proof.
  destruct (placeAndCapture_changes koBefore 1 2 BLACK koAfter 1)
    as (Hsz & _ & _ & _ & Hrem).
  - vm_compute. reflexivity.
  - by split.
Defined.

(** ** Legal positions stay legal *)

(** What the capture loop leaves, in terms of the input board. *)
Lemma placement_facts (board : Board) (r c color : Z) (b' : Board) (k : Z) :
  placeAndCapture board r c color = Placed b' k →
  ∃ seen,
    phaseInv (setCell board r c color) (OTHER color)
      (neighbors (sizeOf board) r c) b' k seen ∧
    sizeOf b' = sizeOf board ∧
    cellOf board (r, c) = Some EMPTY ∧
    cellOf b' (r, c) = Some color ∧
    (∀ q, q ≠ (r, c) →
          cellOf (setCell board r c color) q = cellOf board q) ∧
    (∀ q, q ≠ (r, c) →
          cellOf b' q = cellOf board q ∨
          (cellOf board q = Some (OTHER color) ∧ cellOf b' q = Some EMPTY)).
Proof.
  intros Hp.
  destruct (placeAndCapture_Placed_phase _ _ _ _ _ _ Hp) as [He Hphase].
  destruct (capturePhase_inv board r c color)
    as (newB & captured & seen & Hphase' & Hinv).
  rewrite Hphase in Hphase'. injection Hphase' as <- <-.
  assert (is_Some (cellOf board (r, c))) as Hsome.
  { unfold cellOf; simpl. rewrite He. by eexists. }
  assert (∀ q, q ≠ (r, c) →
               cellOf (setCell board r c color) q = cellOf board q) as Hb0.
  { intros q Hq. by apply (cellOf_setCell_ne board (r, c)). }
  exists seen. split_and!; try done.
  - by rewrite (ph_size _ _ _ _ _ _ Hinv), sizeOf_setCell.
  - destruct (ph_cells _ _ _ _ _ _ Hinv (r, c)) as [->|[Ho _]].
    + by apply (cellOf_setCell_eq board (r, c)).
    + rewrite (cellOf_setCell_eq board (r, c)) in Ho by done.
      exfalso. apply (OTHER_neq color). congruence.
  - intros q Hq. destruct (ph_cells _ _ _ _ _ _ Hinv q) as [Hs|[Hs ?]];
      rewrite Hb0 in Hs by done; [by left|by right].
Qed.

Lemma placement_mover_alive (board : Board) (r c color : Z)
    (b' : Board) (k : Z) :
  color ≠ EMPTY → noDeadGroup board color →
  placeAndCapture board r c color = Placed b' k →
  noDeadGroup b' color.
Proof.
  intros Hcolor Halive Hplaced.
  destruct (placeAndCapture_Placed_inv _ _ _ _ _ _ Hcolor Hplaced)
    as (_ & _ & [l0 Hself]).
  destruct (placement_facts _ _ _ _ _ _ Hplaced)
    as (seen & _ & Hsz & HP0 & HP & _ & Hcells).
  intros p Hpb Hp.
  assert (cellOf b' p ≠ Some EMPTY) as Hne by (rewrite Hp; congruence).
  destruct (connected_dec b' p (r, c) Hne) as [Hconn|Hconn].
  { exists l0. by apply (isLiberty_same_group b' p (r, c)). }
  rewrite Hp in Hconn.
  assert (p ≠ (r, c)) as HpP by (intros ->; apply Hconn, rtc_refl).
  assert (cellOf board p = Some color) as Hp0.
  { destruct (Hcells p HpP) as [<-|[_ ?]]; [done|congruence]. }
  destruct (Halive p) as (l & q & Hq & Hl & He); [by rewrite <- Hsz|done|].
  rewrite Hp0 in Hq.
  assert (connected b' (Some color) p q) as Hq'.
  { apply (connected_transfer board); [done| |done].
    intros x Hx _. apply connected_cell in Hx; [|done].
    destruct (Hcells x) as [?|[Hx' _]]; [congruence|done|].
    exfalso. apply (OTHER_neq color). congruence. }
  destruct (decide (l = (r, c))) as [->|HlP].
  - exfalso. apply Hconn. eapply rtc_r; [exact Hq'|].
    split; [by rewrite Hsz|done].
  - exists l, q. rewrite Hp, Hsz. split_and!; [done..|].
    destruct (Hcells l HlP) as [->|[_ ?]]; done.
Qed.

Lemma placement_opponent_alive (board : Board) (r c color : Z)
    (b' : Board) (k : Z) :
  noDeadGroup board (OTHER color) →
  placeAndCapture board r c color = Placed b' k →
  noDeadGroup b' (OTHER color).
Proof.
  intros Halive Hplaced.
  destruct (placement_facts _ _ _ _ _ _ Hplaced)
    as (seen & Hinv & Hsz & HP0 & HP & Hb0 & Hcells).
  pose proof (OTHER_stone color) as Hopp.
  pose proof (OTHER_neq color) as Hoc.
  set (b0 := setCell board r c color) in *.
  assert (sizeOf b0 = sizeOf board) as Hsz0 by apply sizeOf_setCell.
  intros p Hpb Hp. rewrite Hsz in Hpb.
  assert (p ≠ (r, c)) as HpP by (intros ->; congruence).
  assert (cellOf board p = Some (OTHER color)) as Hp0.
  { destruct (Hcells p HpP) as [<-|[_ ?]]; [done|congruence]. }
  assert (cellOf b0 p = Some (OTHER color)) as Hpb0 by (by rewrite Hb0).
  destruct (Halive p Hpb Hp0) as (l & q & Hq & Hl & He).
  rewrite Hp0 in Hq.
  assert (connected b0 (Some (OTHER color)) p q) as Hq0.
  { apply (connected_transfer board); [done| |done].
    intros x Hx _. apply Hb0. intros ->.
    apply connected_cell in Hx; [|done]. congruence. }
  assert (∀ l', isLiberty b0 p l' → ∃ l, isLiberty b' p l) as Hkeep.
  { intros l' Hl'. exists l'.
    apply (ph_keep _ _ _ _ _ _ Hinv); [by rewrite Hsz0|done..]. }
  destruct (decide (l = (r, c))) as [->|HlP].
  2: { apply (Hkeep l). exists q. rewrite Hpb0, Hsz0.
       split_and!; [done..|]. by rewrite Hb0. }
  assert (inBounds (sizeOf board) q.1 q.2 = true) as Hqb.
  { apply connected_inBounds in Hq as [->|?]; done. }
  assert (q ∈ neighbors (sizeOf board) r c) as Hqn.
  { by apply (neighbors_sym (sizeOf board) q (r, c)). }
  assert (cellOf b0 q = Some (OTHER color)) as Hq0c.
  { by apply (connected_cell b0 _ p). }
  destruct (groupAlive b0 q) eqn:Hga.
  - apply groupAlive_spec in Hga as [l' Hl']; [|rewrite Hq0c; congruence].
    apply (Hkeep l'). apply (isLiberty_same_group b0 p q); [|done].
    by rewrite Hpb0.
  - exfalso.
    assert (cellOf b' p = Some EMPTY) as Hgone; [|congruence].
    apply (capture_removes_dead b0 (OTHER color)
             (neighbors (sizeOf board) r c) b' k seen q p); try done.
    + intros x Hx. rewrite Hsz0. by eapply neighbors_inBounds.
    + intros l' Hl'.
      assert (groupAlive b0 q = true) as Hga'; [|congruence].
      apply groupAlive_spec; [rewrite Hq0c; congruence|by exists l'].
    + apply connected_sym; [by rewrite Hsz0|done..].
Qed.

(** X3: when no group of either colour is without liberty on the input
    board, none is on the board a successful [placeAndCapture] returns. *)
Theorem placeAndCapture_keeps_position_legal (board : Board) (r c color : Z)
    (b' : Board) (k : Z) :
  color ≠ EMPTY →
  noDeadGroup board color → noDeadGroup board (OTHER color) →
  placeAndCapture board r c color = Placed b' k →
  noDeadGroup b' color ∧ noDeadGroup b' (OTHER color).
Proof.
  intros Hcolor Hmine Htheirs Hplaced. split.
  - by eapply placement_mover_alive.
  - by eapply placement_opponent_alive.
Qed.

Lemma placeAndCapture_keeps_position_legal_witness :
  noDeadGroup koAfter BLACK ∧ noDeadGroup koAfter (OTHER BLACK).
Proof.
  apply (placeAndCapture_keeps_position_legal koBefore 1 2 BLACK koAfter 1).
  - done.
  - apply noDeadGroupb_spec; [done|]. vm_compute. reflexivity.
  - apply noDeadGroupb_spec; [done|]. vm_compute. reflexivity.
  - vm_compute. reflexivity.
Defined.

(** ** When a placement is accepted *)

Lemma mover_liberty_kept (b0 newB : Board) (opp : Z) (done seen : list Pos)
    (captured : Z) (p l : Pos) :
  opp ≠ EMPTY → cellOf b0 p ≠ Some opp →
  phaseInv b0 opp done newB captured seen →
  isLiberty b0 p l → isLiberty newB p l.
Proof.
  intros Hopp Hp Hinv (q & Hq & Hl & He).
  assert (cellOf newB p = cellOf b0 p) as Hpp.
  { destruct (ph_cells _ _ _ _ _ _ Hinv p) as [?|[? _]]; [done|congruence]. }
  exists q. rewrite Hpp, (ph_size _ _ _ _ _ _ Hinv). split_and!; [|done|].
  - apply (connected_transfer b0); [apply Hinv| |done].
    intros x Hx _. apply connected_cell in Hx; [|done].
    destruct (ph_cells _ _ _ _ _ _ Hinv x) as [?|[? _]]; [done|congruence].
  - destruct (ph_cells _ _ _ _ _ _ Hinv l) as [->|[_ ?]]; done.
Qed.

(** X4: on an empty cell, [placeAndCapture] accepts the placement exactly
    when, with the stone put on the board, an opponent group next to it
    has no liberty or the group of the stone has one; otherwise it returns
    [null]. *)
Theorem placeAndCapture_accepts_iff (board : Board) (r c color : Z) :
  color ≠ EMPTY → cellAt board r c = Some EMPTY →
  let b0 := setCell board r c color in
  let captures :=
    ∃ n, n ∈ neighbors (sizeOf board) r c ∧
         cellOf b0 n = Some (OTHER color) ∧ ∀ l, ¬ isLiberty b0 n l in
  let breathes := ∃ l, isLiberty b0 (r, c) l in
  ((∃ b' k, placeAndCapture board r c color = Placed b' k) ↔
   captures ∨ breathes) ∧
  (placeAndCapture board r c color = ILLEGAL ↔ ¬ (captures ∨ breathes)).
Proof.
  intros Hcolor Hcell b0 captures breathes.
  destruct (placeAndCapture_spec board r c color Hcolor Hcell)
    as (newB & captured & seen & Hphase & Hinv & Hp & Hplaced & Hillegal).
  fold b0 in Hinv.
  pose proof (OTHER_stone color) as Hopp.
  assert (sizeOf b0 = sizeOf board) as Hsz0 by apply sizeOf_setCell.
  assert (cellOf b0 (r, c) = Some color) as Hp0.
  { apply (cellOf_setCell_eq board (r, c)). unfold cellOf; simpl.
    rewrite Hcell. by eexists. }
  assert (captures ∨ breathes → ∃ l, isLiberty newB (r, c) l) as Hyes.
  { intros [(n & Hn & Hn0 & Hdead)|[l Hl]].
    - exists n. apply empty_neighbor_liberty.
      + by rewrite (ph_size _ _ _ _ _ _ Hinv), Hsz0.
      + apply (capture_removes_dead b0 (OTHER color)
                 (neighbors (sizeOf board) r c) newB captured seen n n);
          try done.
        intros x Hx. rewrite Hsz0. by eapply neighbors_inBounds.
    - exists l. eapply mover_liberty_kept; try done.
      rewrite Hp0. intros [= H]. by apply (OTHER_neq color). }
  assert ((∃ l, isLiberty newB (r, c) l) → captures ∨ breathes) as Hno.
  { intros [l Hl].
    destruct (decide (captured = 0)) as [Hz|Hz].
    - apply (ph_none _ _ _ _ _ _ Hinv) in Hz. subst newB. right. by exists l.
    - pose proof (ph_count _ _ _ _ _ _ Hinv) as H0.
      destruct (ph_some _ _ _ _ _ _ Hinv) as (n & Hn & He); [lia|].
      destruct (ph_cells _ _ _ _ _ _ Hinv n) as [Hs|[Hs _]].
      + right. exists n. apply empty_neighbor_liberty; [by rewrite Hsz0|].
        congruence.
      + left. exists n. split_and!; [done..|].
        by apply (ph_dead _ _ _ _ _ _ Hinv n). }
  assert (Decision (∃ l, isLiberty newB (r, c) l)) as [Hl|Hl].
  { destruct (groupAlive newB (r, c)) eqn:Hga.
    - left. apply groupAlive_spec; [rewrite Hp; congruence|done].
    - right. intros H. apply groupAlive_spec in H; [congruence|].
      rewrite Hp. congruence. }
  - rewrite (Hplaced Hl). split; split; try done; eauto.
    intros H. destruct H. auto.
  - assert (∀ l, ¬ isLiberty newB (r, c) l) as Hl' by (intros l ?; eauto).
    rewrite (Hillegal Hl'). split; split; try done.
    + by intros (? & ? & ?).
    + intros H. destruct Hl. auto.
    + intros _ H. destruct Hl. auto.
Qed.

Lemma placeAndCapture_accepts_iff_witness :
  ∃ b' k, placeAndCapture koBefore 1 2 BLACK = Placed b' k.
Proof.
  destruct (placeAndCapture_accepts_iff koBefore 1 2 BLACK) as [[_ H] _].
  - done.
  - vm_compute. reflexivity.
  - apply H. left. exists (1, 1). split_and!.
    + vm_compute. set_solver.
    + vm_compute. reflexivity.
    + intros l Hl.
      assert (groupAlive (setCell koBefore 1 2 BLACK) (1, 1) = true) as Hga.
      { apply groupAlive_spec; [vm_compute; discriminate|by exists l]. }
      vm_compute in Hga. discriminate.
Defined.

(** ** Which stones a placement removes *)

(** Every stone removed so far belongs to the group of an opponent stone
    next to the placed one, and that group has no liberty. *)
Definition deadInv (b0 : Board) (opp : Z) (done : list Pos) (newB : Board)
    : Prop :=
  ∀ q, cellOf newB q = Some EMPTY → cellOf b0 q = Some opp →
       ∃ n, n ∈ done ∧ cellOf b0 n = Some opp ∧
            connected b0 (Some opp) n q ∧ ∀ l, ¬ isLiberty b0 n l.

Lemma capture_fold_dead (b0 : Board) (opp : Z) (ns done : list Pos)
    (newB : Board) (captured : Z) (seen : list Pos) :
  opp ≠ EMPTY →
  NoDup ns → (∀ x, x ∈ ns → x ∉ done) →
  (∀ x, x ∈ done ++ ns → inBounds (sizeOf b0) x.1 x.2 = true) →
  phaseInv b0 opp done newB captured seen →
  deadInv b0 opp done newB →
  ∃ newB' captured' seen',
    fold_left (captureStep opp) ns (newB, captured, seen)
      = (newB', captured', seen') ∧
    phaseInv b0 opp (done ++ ns) newB' captured' seen' ∧
    deadInv b0 opp (done ++ ns) newB'.
Proof.
  intros Hopp. revert done newB captured seen.
  induction ns as [|n ns IH];
    intros done newB captured seen Hnd Hfresh Hbnd Hinv Hdead.
  { rewrite app_nil_r. by eexists _, _, _. }
  cbn [fold_left]. apply NoDup_cons in Hnd as [Hn Hnd].
  replace (done ++ n :: ns) with ((done ++ [n]) ++ ns) in *
    by (by rewrite <- app_assoc).
  assert (n ∉ done) as Hnd' by (apply Hfresh; by left).
  assert (inBounds (sizeOf b0) n.1 n.2 = true) as Hnb
    by (apply Hbnd; set_solver).
  destruct (captureStep_inv b0 opp Hopp done newB captured seen n)
    as (newB1 & captured1 & seen1 & Hstep & Hinv1);
    [done|intros x Hx; apply Hbnd; set_solver|done|].
  destruct (captureStep_spec opp newB captured seen n Hopp)
    as (newB2 & captured2 & seen2 & Hstep2 & _ & Hcase).
  { intros Hin. apply Hnd'. by apply (ph_seen _ _ _ _ _ _ Hinv). }
  rewrite Hstep in Hstep2. injection Hstep2 as <- <- <-. rewrite Hstep.
  apply (IH (done ++ [n])); try done.
  { intros x Hx [Hd| ->%list_elem_of_singleton]%elem_of_app; [|done].
    apply (Hfresh x); [by right|done]. }
  assert (∀ x, cellOf newB x = Some opp → cellOf b0 x = Some opp) as Hback.
  { intros x Hx. destruct (ph_cells _ _ _ _ _ _ Hinv x) as [<-|[_ ?]];
      [done|congruence]. }
  intros q Hq Hq0.
  destruct Hcase as [(-> & _ & _)|(Hno & Hnolib & Hsz & G & HG & _ & Hcells)].
  - destruct (Hdead q Hq Hq0) as (m & Hm & ?). exists m.
    split; [apply elem_of_app; by left|done].
  - rewrite Hcells in Hq. destruct (decide (q ∈ G)) as [HqG|HqG].
    + exists n. split_and!.
      * apply elem_of_app. right. by left.
      * by apply Hback.
      * apply (connected_mono newB);
          [symmetry; apply (ph_size _ _ _ _ _ _ Hinv)|done|by apply HG].
      * intros l Hl. apply (Hnolib l).
        by apply (ph_keep _ _ _ _ _ _ Hinv).
    + destruct (Hdead q Hq Hq0) as (m & Hm & ?). exists m.
      split; [apply elem_of_app; by left|done].
Qed.

(** X5: the opponent stones a successful [placeAndCapture] removes are
    exactly the stones of the opponent groups that touch the placed stone
    and have no liberty once the stone is on the board. *)
Theorem placeAndCapture_removes_exactly (board : Board) (r c color : Z)
    (b' : Board) (k : Z) (q : Pos) :
  placeAndCapture board r c color = Placed b' k →
  let b0 := setCell board r c color in
  (cellOf board q = Some (OTHER color) ∧ cellOf b' q = Some EMPTY) ↔
  ∃ n, n ∈ neighbors (sizeOf board) r c ∧
       cellOf b0 n = Some (OTHER color) ∧
       connected b0 (Some (OTHER color)) n q ∧
       ∀ l, ¬ isLiberty b0 n l.
Proof.
  intros Hp b0.
  destruct (placeAndCapture_Placed_phase _ _ _ _ _ _ Hp) as [He Hphase].
  pose proof (OTHER_stone color) as Hopp.
  destruct (capture_fold_dead b0 (OTHER color)
              (neighbors (sizeOf board) r c) [] b0 0 [] Hopp)
    as (newB & captured & seen & Hfold & Hinv & Hdead).
  { apply NoDup_neighbors. }
  { intros x _ Hx. by apply elem_of_nil in Hx. }
  { intros x Hx. unfold b0. rewrite sizeOf_setCell.
    by eapply neighbors_inBounds. }
  { by apply phaseInv_init. }
  { intros x H1 H2. congruence. }
  unfold capturePhase in Hphase. rewrite cloneBoard_id in Hphase.
  fold b0 in Hphase. rewrite Hfold in Hphase. injection Hphase as <- <-.
  rewrite app_nil_l in Hinv, Hdead.
  assert (is_Some (cellOf board (r, c))) as Hsome.
  { unfold cellOf; simpl. rewrite He. by eexists. }
  assert (cellOf b0 (r, c) = Some color) as HP0
    by (by apply (cellOf_setCell_eq board (r, c))).
  assert (cellOf b0 q = Some (OTHER color) ↔
          cellOf board q = Some (OTHER color)) as Hq0.
  { destruct (decide (q = (r, c))) as [->|Hne].
    - assert (cellOf board (r, c) = Some EMPTY) as He' by exact He.
      rewrite HP0, He'. split; intros [= H]; exfalso.
      + by apply (OTHER_neq color).
      + by apply (OTHER_stone color).
    - unfold b0. by rewrite (cellOf_setCell_ne board (r, c)). }
  split.
  - intros [H1 H2]. apply Hdead; [done|by apply Hq0].
  - intros (n & Hn & Hn0 & Hnq & Hnolib). split.
    + apply Hq0. by apply (connected_cell b0 _ n).
    + apply (capture_removes_dead b0 (OTHER color)
               (neighbors (sizeOf board) r c) newB captured seen n q);
        try done.
      intros x Hx. unfold b0. rewrite sizeOf_setCell.
      by eapply neighbors_inBounds.
Qed.

Lemma placeAndCapture_removes_exactly_witness :
  (cellOf koBefore (1, 1) = Some (OTHER BLACK) ∧
   cellOf koAfter (1, 1) = Some EMPTY) ↔
  ∃ n, n ∈ neighbors (sizeOf koBefore) 1 2 ∧
       cellOf (setCell koBefore 1 2 BLACK) n = Some (OTHER BLACK) ∧
       connected (setCell koBefore 1 2 BLACK) (Some (OTHER BLACK)) n (1, 1) ∧
       ∀ l, ¬ isLiberty (setCell koBefore 1 2 BLACK) n l.
Proof.
  apply (placeAndCapture_removes_exactly koBefore 1 2 BLACK koAfter 1 (1, 1)).
  vm_compute. reflexivity.
Defined.

(** ** The list [legalMoves] builds *)

Definition coords (m : Move) : Pos := (mr m, mc m).

Lemma cellMoves_cases (board : Board) (color : Z) (ko : option string)
    (r c : Z) :
  cellMoves board color ko r c = [] ∨
  ∃ b n, cellMoves board color ko r c = [mkMove r c (mkRes b n) false].
Proof.
  unfold cellMoves, legalCell.
  destruct (decide (cellAt board r c = Some EMPTY)); [|by left].
  destruct (placeAndCapture board r c color) as [| |b n]; [by left..|].
  destruct (koHit ko (boardKey b)); [by left|]. right. by exists b, n.
Qed.

Lemma cellMoves_coords (board : Board) (color : Z) (ko : option string)
    (rs cs : list Z) :
  coords <$> (rs ≫= λ r, cs ≫= λ c, cellMoves board color ko r c)
  `sublist_of` (rs ≫= λ r, cs ≫= λ c, [(r, c)]).
Proof.
  induction rs as [|r rs IHr]; [done|].
  rewrite !bind_cons, fmap_app. apply sublist_app; [|exact IHr].
  clear IHr. induction cs as [|c cs IHc]; [done|].
  rewrite !bind_cons, fmap_app. apply sublist_app; [|exact IHc].
  destruct (cellMoves_cases board color ko r c) as [->|(b & n & ->)].
  - apply sublist_nil_l.
  - done.
Qed.

Lemma placements_coords (board : Board) (color : Z) (ko : option string) :
  coords <$> placements board color ko `sublist_of` allCells (sizeOf board).
Proof. apply cellMoves_coords. Qed.

(** X6: [legalMoves] lists the placements and then the pass.  The
    placements are the in-bounds empty cells on which [placeAndCapture]
    succeeds with a board whose key the ko test lets through, each with the
    board and the capture count [placeAndCapture] returns; they come in
    row-major order, at most one for a cell. *)
Theorem legalMoves_listing (board : Board) (color : Z) (ko : option string) :
  ∃ pl,
    legalMoves board color ko = pl ++ [passMove board] ∧
    (∀ m, m ∈ pl ↔
          pass m = false ∧
          inBounds (sizeOf board) (mr m) (mc m) = true ∧
          cellAt board (mr m) (mc m) = Some EMPTY ∧
          placeAndCapture board (mr m) (mc m) color
            = Placed (res_board (res m)) (captured (res m)) ∧
          koHit ko (boardKey (res_board (res m))) = false) ∧
    coords <$> pl `sublist_of` allCells (sizeOf board) ∧
    NoDup pl ∧
    (length pl ≤ Z.to_nat (sizeOf board) * Z.to_nat (sizeOf board))%nat.
Proof.
  exists (placements board color ko).
  pose proof (placements_coords board color ko) as Hsub.
  split_and!.
  - apply legalMoves_eq.
  - intros m. rewrite elem_of_placements. split.
    + intros (b & n & Hb & He & Hp & Hko & ->). simpl. done.
    + intros (Hpass & Hb & He & Hp & Hko).
      exists (res_board (res m)), (captured (res m)).
      split_and!; try done. destruct m as [? ? [? ?] ?]. simpl in *.
      by subst.
  - exact Hsub.
  - apply (NoDup_fmap_1 coords).
    apply (sublist_NoDup _ _ (NoDup_allCells (sizeOf board)) Hsub).
  - apply sublist_length in Hsub.
    by rewrite length_fmap, length_allCells in Hsub.
Qed.

(** ** Placements away from the opponent, and the empty board *)

Lemma capture_fold_quiet (opp : Z) (ns : list Pos) (newB : Board) (k : Z)
    (seen : list Pos) :
  (∀ n, n ∈ ns → cellOf newB n ≠ Some opp) →
  fold_left (captureStep opp) ns (newB, k, seen) = (newB, k, seen).
Proof.
  induction ns as [|n ns IH]; intros Hns; [done|].
  cbn [fold_left]. unfold captureStep at 2.
  rewrite decide_False by (apply Hns; by left).
  apply IH. intros x Hx. apply Hns. by right.
Qed.

(** X7: a stone put on an empty cell that has an empty neighbour and no
    opponent stone next to it is accepted; nothing is captured and the
    returned board is the input board with the stone added. *)
Theorem placeAndCapture_quiet (board : Board) (r c color : Z) :
  color ≠ EMPTY → cellAt board r c = Some EMPTY →
  (∀ n, n ∈ neighbors (sizeOf board) r c →
        cellOf board n ≠ Some (OTHER color)) →
  (∃ n, n ∈ neighbors (sizeOf board) r c ∧ cellOf board n = Some EMPTY) →
  placeAndCapture board r c color = Placed (setCell board r c color) 0.
Proof.
  intros Hcolor Hcell Hquiet (n & Hn & He).
  assert (∀ x, x ∈ neighbors (sizeOf board) r c →
               cellOf (setCell board r c color) x = cellOf board x) as Hsame.
  { intros x Hx. apply (cellOf_setCell_ne board (r, c)).
    intros Heq. by apply neighbors_ne in Hx. }
  rewrite placeAndCapture_unfold by done. unfold capturePhase.
  rewrite cloneBoard_id, capture_fold_quiet.
  2: { intros x Hx. rewrite Hsame by done. by apply Hquiet. }
  cbn [fst].
  assert (cellOf (setCell board r c color) (r, c) = Some color) as HP.
  { apply (cellOf_setCell_eq board (r, c)). unfold cellOf; simpl.
    rewrite Hcell. by eexists. }
  assert (cellOf (setCell board r c color) (r, c) ≠ Some EMPTY) as Hne
    by (rewrite HP; congruence).
  destruct (floodGroup_spec _ (r, c) Hne) as (_ & Hlib & _ & _).
  simpl in Hlib.
  assert (n ∈ liberties (floodGroup (setCell board r c color) r c)) as Hin.
  { apply Hlib, empty_neighbor_liberty.
    - by rewrite sizeOf_setCell.
    - by rewrite Hsame. }
  rewrite decide_False; [done|].
  destruct (liberties _); [by apply elem_of_nil in Hin|done].
Qed.

Lemma placeAndCapture_quiet_witness :
  placeAndCapture (makeBoard 3) 1 1 BLACK
  = Placed (setCell (makeBoard 3) 1 1 BLACK) 0.
Proof.
  apply placeAndCapture_quiet.
  - done.
  - vm_compute. reflexivity.
  - intros n Hn. vm_compute in Hn.
    repeat (apply elem_of_cons in Hn as [->|Hn]; [vm_compute; discriminate|]).
    by apply elem_of_nil in Hn.
  - exists (0, 1). split; [|vm_compute; reflexivity].
    vm_compute. apply list_elem_of_here.
Defined.

Lemma sizeOf_makeBoard (n : Z) : 0 ≤ n → sizeOf (makeBoard n) = n.
Proof.
  intros Hn. unfold sizeOf, makeBoard, makeGrid.
  rewrite length_replicate. lia.
Qed.

Lemma cellOf_makeBoard (n : Z) (p : Pos) :
  inBounds n p.1 p.2 = true → cellOf (makeBoard n) p = Some EMPTY.
Proof.
  unfold inBounds, makeBoard, makeGrid, cellOf, cellAt, at_.
  rewrite !andb_true_iff, !Z.leb_le, !Z.ltb_lt. intros Hb.
  destruct (Z.leb_spec 0 p.1); [|lia]. destruct (Z.leb_spec 0 p.2); [|lia].
  rewrite lookup_replicate_2 by lia. by rewrite lookup_replicate_2 by lia.
Qed.

Lemma cellOf_makeBoard_inv (n : Z) (p : Pos) (v : Z) :
  cellOf (makeBoard n) p = Some v → v = EMPTY.
Proof.
  unfold makeBoard, makeGrid, cellOf, cellAt, at_.
  destruct (0 <=? p.1); [|done].
  destruct (replicate _ _ !! _) as [row|] eqn:Hrow; [|done].
  apply lookup_replicate in Hrow as [-> _].
  destruct (0 <=? p.2); [|done].
  intros Hv. by apply lookup_replicate in Hv as [-> _].
Qed.

Lemma neighbors_exist (n r c : Z) :
  2 ≤ n → inBounds n r c = true → ∃ x, x ∈ neighbors n r c.
Proof.
  unfold inBounds. rewrite !andb_true_iff, !Z.leb_le, !Z.ltb_lt.
  intros Hn Hb. destruct (decide (r = 0)) as [->|Hr].
  - exists (0 + 1, c). apply elem_of_neighbors. split; [|tauto].
    unfold inBounds. simpl.
    rewrite !andb_true_iff, !Z.leb_le, !Z.ltb_lt. lia.
  - exists (r - 1, c). apply elem_of_neighbors. split; [|tauto].
    unfold inBounds. simpl.
    rewrite !andb_true_iff, !Z.leb_le, !Z.ltb_lt. lia.
Qed.

(** The placement of a stone of [color] on the cell [p] of the empty board. *)
Definition firstMove (n color : Z) (p : Pos) : Move :=
  mkMove p.1 p.2 (mkRes (setCell (makeBoard n) p.1 p.2 color) 0) false.

Lemma cellMoves_makeBoard (n color r c : Z) :
  2 ≤ n → color ≠ EMPTY → inBounds n r c = true →
  cellMoves (makeBoard n) color None r c = [firstMove n color (r, c)].
Proof.
  intros Hn Hcolor Hb. unfold cellMoves, legalCell.
  assert (cellAt (makeBoard n) r c = Some EMPTY) as He
    by (by apply (cellOf_makeBoard n (r, c))).
  rewrite decide_True by done.
  rewrite placeAndCapture_quiet; try done.
  - intros x Hx Hc. apply cellOf_makeBoard_inv in Hc.
    by apply (OTHER_stone color).
  - rewrite sizeOf_makeBoard by lia.
    destruct (neighbors_exist n r c Hn Hb) as [x Hx]. exists x.
    split; [done|]. apply cellOf_makeBoard. by eapply neighbors_inBounds.
Qed.

(** X8: on the empty board of size at least 2 every cell is a legal
    placement for either colour: without a previous key, [legalMoves]
    lists the placement of a stone on each cell, row by row, and the pass. *)
Theorem legalMoves_makeBoard (n color : Z) :
  2 ≤ n → color ≠ EMPTY →
  legalMoves (makeBoard n) color None
  = (firstMove n color <$> allCells n) ++ [passMove (makeBoard n)] ∧
  length (legalMoves (makeBoard n) color None)
  = S (Z.to_nat n * Z.to_nat n).
Proof.
  intros Hn Hcolor.
  assert (legalMoves (makeBoard n) color None
          = (firstMove n color <$> allCells n) ++ [passMove (makeBoard n)])
    as Heq.
  { rewrite legalMoves_eq. f_equal. unfold placements, allCells.
    rewrite sizeOf_makeBoard by lia.
    assert (∀ rs cs : list Z,
              Forall (λ r, 0 ≤ r < n) rs → Forall (λ c, 0 ≤ c < n) cs →
              (rs ≫= λ r, cs ≫= λ c, cellMoves (makeBoard n) color None r c)
              = firstMove n color <$> (rs ≫= λ r, cs ≫= λ c, [(r, c)])) as H.
    { intros rs cs Hrs Hcs. induction Hrs as [|r rs Hr _ IHr]; [done|].
      rewrite !bind_cons, fmap_app, IHr. f_equal. clear IHr.
      induction Hcs as [|c cs Hc _ IHc]; [done|].
      rewrite !bind_cons, fmap_app, IHc. f_equal.
      apply cellMoves_makeBoard; try done. unfold inBounds.
      rewrite !andb_true_iff, !Z.leb_le, !Z.ltb_lt. lia. }
    apply H; apply Forall_forall; intros x Hx%elem_of_seqZ; lia. }
  split; [exact Heq|].
  rewrite Heq, length_app, length_fmap, length_allCells. simpl. lia.
Qed.

Lemma legalMoves_makeBoard_witness :
  length (legalMoves (makeBoard 9) WHITE None) = 82%nat.
Proof.
  destruct (legalMoves_makeBoard 9 WHITE) as [_ H]; [lia|done|].
  exact H.
Defined.
